(** * Potential fields of homogeneous spheres: [fatiando.potential.sphere]

    A shallow embedding of [_dircos], [tf] and [gz], and the properties of
    the field-evaluation engine.

    Numbers.  A Python or numpy float is modelled by [val]: an exact real
    number, or [NonFinite], which stands for the infinities and NaN alike;
    every operation propagates it and a division by zero produces it.
    Rounding, overflow and underflow are not modelled: the statements are
    about exact real arithmetic on finite inputs.

    Arrays.  A numpy array is a shape (a tuple of dimensions) with its
    elements in row-major order; an operation between two arrays follows
    numpy's broadcasting and raises [ValueError] when the shapes are not
    compatible.

    Effects.  The evaluators run in a small monad [M] that carries the
    exception raised, if any, and the list of the calls made to [_dircos].

    The picking tools of [fatiando.ui.picker] are modelled as the callbacks
    they connect, run by an event loop over the events of a session.  Their
    coordinates are real numbers, which the tools store and compare; the
    one place where they compute with them is the thicknesses of
    [draw_layers], differences that the code rounds and the model does not.

    Part I is the model; Parts II and III are the properties of the
    evaluators, Part IV those of the picking tools. *)

From Stdlib Require Import Reals Lra.
From stdpp Require Import base list gmap strings.

Open Scope R_scope.

(** * Part I: the model *)

(** ** Floating-point values over the reals *)

Inductive val : Type :=
  | Finite (r : R)
  | NonFinite.

Definition is_finite (v : val) : Prop :=
  match v with Finite _ => True | NonFinite => False end.

Definition lift1 (f : R → R) (a : val) : val :=
  match a with Finite x => Finite (f x) | NonFinite => NonFinite end.

Definition lift2 (f : R → R → R) (a b : val) : val :=
  match a, b with Finite x, Finite y => Finite (f x y) | _, _ => NonFinite end.

Definition add : val → val → val := lift2 Rplus.
Definition sub : val → val → val := lift2 Rminus.
Definition mul : val → val → val := lift2 Rmult.

(** [a / b]: a zero divisor gives a non-finite result. *)
Definition div (a b : val) : val :=
  match a, b with
  | Finite x, Finite y => if Req_dec_T y 0 then NonFinite else Finite (x / y)
  | _, _ => NonFinite
  end.

(** [a ** n] for an integer literal [n] (the source uses 2 and 3). *)
Definition powi (a : val) (n : nat) : val :=
  match n with
  | O => Finite 1
  | _ => lift1 (fun x => x ^ n) a
  end.

(** [a ** y] for a float literal [y]; the source uses 2.5 and 1.5, which are
    not integers, so a negative base has no real power. *)
Definition powf (a : val) (y : R) : val :=
  match a with
  | Finite x =>
      if Rlt_dec 0 x then Finite (Rpower x y)
      else if Req_dec_T x 0 then
        (if Rlt_dec 0 y then Finite 0
         else if Req_dec_T y 0 then Finite 1 else NonFinite)
      else NonFinite
  | NonFinite => NonFinite
  end.

Definition vcos : val → val := lift1 cos.
Definition vsin : val → val := lift1 sin.

(** [numpy.pi] *)
Definition pi : val := Finite PI.

Declare Scope val_scope.
Delimit Scope val_scope with V.
Bind Scope val_scope with val.
Infix "+" := add : val_scope.
Infix "-" := sub : val_scope.
Infix "*" := mul : val_scope.
Infix "/" := div : val_scope.

(** ** [_dircos] *)

Definition vec3 : Type := val * val * val.

Definition _dircos (inc dec : val) : vec3 :=
  let d2r := (pi / Finite 180)%V in
  ((vcos (d2r * inc) * vcos (d2r * dec))%V,
   (vcos (d2r * inc) * vsin (d2r * dec))%V,
   vsin (d2r * inc)).

(** ** Exceptions and the call log *)

Inductive exn : Type :=
  | ValueError (msg : string).

Inductive result (A : Type) : Type :=
  | Ok (a : A)
  | Raise (e : exn).
Arguments Ok {A} a.
Arguments Raise {A} e.

(** One call [_dircos(inc, dec)]. *)
Definition call : Type := val * val.

(** A computation: the calls to [_dircos] it made, in order, and how it
    ended. *)
Definition M (A : Type) : Type := list call * result A.

Definition calls {A} (m : M A) : list call := fst m.
Definition outcome {A} (m : M A) : result A := snd m.

Definition ret {A} (a : A) : M A := ([], Ok a).
Definition raise {A} (e : exn) : M A := ([], Raise e).
Definition bind {A B} (m : M A) (k : A → M B) : M B :=
  match m with
  | (l, Ok a) => let '(l', r) := k a in (l ++ l', r)
  | (l, Raise e) => (l, Raise e)
  end.

Notation "'let*' p := m 'in' k" := (bind m (fun p => k))
  (at level 10, p pattern, m at level 200, k at level 200,
   format "'[v' 'let*'  p  :=  m  'in' '/' k ']'").

(** [for a in l: s = body(s, a)] *)
Fixpoint for_each {A S : Type} (body : S → A → M S) (l : list A) (s : S) : M S :=
  match l with
  | [] => ret s
  | a :: l' => let* s' := body s a in for_each body l' s'
  end.

(** [_dircos] as a logged call. *)
Definition call_dircos (inc dec : val) : M vec3 :=
  ([(inc, dec)], Ok (_dircos inc dec)).

(** ** numpy arrays *)

Record ndarray : Type := { shape : list nat; data : list val }.

(** Number of elements of an array of shape [s]. *)
Definition size_of (s : list nat) : nat := foldr Nat.mul 1%nat s.

Definition wf (a : ndarray) : Prop := length (data a) = size_of (shape a).

(** Broadcasting: shapes are aligned on their last dimension, the shorter
    one is extended with leading 1s; two dimensions are compatible when
    they are equal or one of them is 1. *)
Definition pad (n : nat) (s : list nat) : list nat :=
  replicate (n - length s) 1%nat ++ s.

Definition broadcast_dim (m n : nat) : option nat :=
  if decide (m = n) then Some m
  else if decide (m = 1%nat) then Some n
  else if decide (n = 1%nat) then Some m
  else None.

Fixpoint broadcast_dims (s t : list nat) : option (list nat) :=
  match s, t with
  | [], [] => Some []
  | m :: s', n :: t' =>
      match broadcast_dim m n, broadcast_dims s' t' with
      | Some d, Some r => Some (d :: r)
      | _, _ => None
      end
  | _, _ => None
  end.

Definition broadcast_shapes (s t : list nat) : option (list nat) :=
  let n := (length s `max` length t)%nat in
  broadcast_dims (pad n s) (pad n t).

(** [k] consecutive blocks of [n] elements. *)
Fixpoint chunks {A} (k n : nat) (d : list A) : list (list A) :=
  match k with
  | O => []
  | S k' => take n d :: chunks k' n (drop n d)
  end.

(** The elements of an array of shape [s] seen as an array of shape [t]
    (same number of dimensions): a dimension of length 1 is repeated. *)
Fixpoint expand {A} (s t : list nat) (d : list A) : list A :=
  match s, t with
  | m :: s', n :: t' =>
      if decide (m = n)
      then mjoin (expand s' t' <$> chunks n (size_of s') d)
      else mjoin (replicate n (expand s' t' d))
  | _, _ => d
  end.

Definition broadcast_to {A} (s t : list nat) (d : list A) : list A :=
  expand (pad (length t) s) t d.

Definition broadcast_msg : string :=
  "operands could not be broadcast together".

(** An elementwise operation between two arrays. *)
Definition arr_op (f : val → val → val) (a b : ndarray) : M ndarray :=
  match broadcast_shapes (shape a) (shape b) with
  | Some s =>
      ret {| shape := s;
             data := zip_with f (broadcast_to (shape a) s (data a))
                                (broadcast_to (shape b) s (data b)) |}
  | None => raise (ValueError broadcast_msg)
  end.

(** An elementwise operation between an array and a scalar. *)
Definition arr_map (f : val → val) (a : ndarray) : ndarray :=
  {| shape := shape a; data := f <$> data a |}.

Definition zeros_like (a : ndarray) : ndarray :=
  {| shape := shape a; data := replicate (size_of (shape a)) (Finite 0) |}.

Declare Scope arr_scope.
Delimit Scope arr_scope with A.
(** array (op) array *)
Notation "a +@ b" := (arr_op add a b) (at level 50, left associativity) : arr_scope.
Notation "a -@ b" := (arr_op sub a b) (at level 50, left associativity) : arr_scope.
Notation "a *@ b" := (arr_op mul a b) (at level 40, left associativity) : arr_scope.
Notation "a /@ b" := (arr_op div a b) (at level 40, left associativity) : arr_scope.
(** scalar * array, array * scalar, array - scalar, array ** literal *)
Notation "c *~ a" := (arr_map (fun v => mul c v) a) (at level 40, left associativity) : arr_scope.
Notation "a ~* c" := (arr_map (fun v => mul v c) a) (at level 40, left associativity) : arr_scope.
Notation "a ~- c" := (arr_map (fun v => sub v c) a) (at level 50, left associativity) : arr_scope.
Notation "a **i n" := (arr_map (fun v => powi v n) a) (at level 30) : arr_scope.
Notation "a **f y" := (arr_map (fun v => powf v y) a) (at level 30) : arr_scope.

(** ** Spheres *)

(** The attributes of [fatiando.mesher.ddd.Sphere] that the evaluators
    read: the centre, the radius and the property dictionary. *)
Module Sphere.
Record t : Type := make {
  x : val; y : val; z : val;
  radius : val;
  props : gmap string val
}.
End Sphere.

(** ** The evaluators *)

Definition shape_msg : string :=
  "Input arrays xp, yp, and zp must have same shape!".

(** [xp.shape != yp.shape != zp.shape], a chained comparison:
    [xp.shape != yp.shape and yp.shape != zp.shape]. *)
Definition shape_check (xp yp zp : ndarray) : bool :=
  bool_decide (shape xp ≠ shape yp) && bool_decide (shape yp ≠ shape zp).

Section Evaluators.
(** The constants of [fatiando.constants], fixed floats. *)
Variables G SI2MGAL CM T2NT : R.

Open Scope arr_scope.

(** One iteration of the loop of [tf]. *)
Definition tf_body (fx fy fz : val) (xp yp zp : ndarray)
    (tf : ndarray) (sphere : option Sphere.t) : M ndarray :=
  match sphere with
  | None => ret tf
  | Some sphere =>
    match Sphere.props sphere !! "magnetization" with
    | None => ret tf
    | Some mag =>
      let radius := Sphere.radius sphere in
      let* (mx, my, mz) :=
         match Sphere.props sphere !! "inclination",
               Sphere.props sphere !! "declination" with
         | Some inclination, Some declination =>
             call_dircos inclination declination
         | _, _ => ret (fx, fy, fz)
         end in
      let x := xp ~- Sphere.x sphere in
      let y := yp ~- Sphere.y sphere in
      let z := zp ~- Sphere.z sphere in
      let* t := mx *~ x +@ my *~ y in
      let* dotprod := t +@ mz *~ z in
      let* t := x **i 2 +@ y **i 2 in
      let* r_sqr := t +@ z **i 2 in
      let r5 := r_sqr **f (5 / 2) in
      let moment :=
        (mag * Finite 4 * pi * powi radius 3 / Finite 3)%V in
      let* t := Finite 3 *~ dotprod *@ x in
      let* t := t -@ r_sqr ~* mx in
      let* bx := moment *~ t /@ r5 in
      let* t := Finite 3 *~ dotprod *@ y in
      let* t := t -@ r_sqr ~* my in
      let* by_ := moment *~ t /@ r5 in
      let* t := Finite 3 *~ dotprod *@ z in
      let* t := t -@ r_sqr ~* mz in
      let* bz := moment *~ t /@ r5 in
      let* t := fx *~ bx +@ fy *~ by_ in
      let* t := t +@ fz *~ bz in
      tf +@ t
    end
  end.

Definition tf (xp yp zp : ndarray) (spheres : list (option Sphere.t))
    (inc dec : val) : M ndarray :=
  if shape_check xp yp zp then raise (ValueError shape_msg)
  else
    let tf := zeros_like xp in
    let* (fx, fy, fz) := call_dircos inc dec in
    let* tf := for_each (tf_body fx fy fz xp yp zp) spheres tf in
    ret ((Finite CM * Finite T2NT)%V *~ tf).

(** One iteration of the loop of [gz]. *)
Definition gz_body (xp yp zp : ndarray)
    (res : ndarray) (sphere : option Sphere.t) : M ndarray :=
  match sphere with
  | None => ret res
  | Some sphere =>
    match Sphere.props sphere !! "density" with
    | None => ret res
    | Some density =>
      let radius := Sphere.radius sphere in
      let x := xp ~- Sphere.x sphere in
      let y := yp ~- Sphere.y sphere in
      let z := zp ~- Sphere.z sphere in
      let* t := x **i 2 +@ y **i 2 in
      let* t := t +@ z **i 2 in
      let r_cb := t **f (3 / 2) in
      let mass :=
        (density * Finite 4 * pi * powi radius 3 / Finite 3)%V in
      let* t := mass *~ z /@ r_cb in
      res +@ t
    end
  end.

Definition gz (xp yp zp : ndarray) (spheres : list (option Sphere.t))
    : M ndarray :=
  if shape_check xp yp zp then raise (ValueError shape_msg)
  else
    let res := zeros_like xp in
    let* res := for_each (gz_body xp yp zp) spheres res in
    ret ((Finite G * Finite SI2MGAL)%V *~ res).

End Evaluators.

(** ** Vocabulary of the properties *)

(** Squared Euclidean length of a vector. *)
Definition norm2 (v : vec3) : val :=
  let '(a, b, c) := v in (a * a + b * b + c * c)%V.

(** ** Arrays of one shape, seen point by point *)

(** An observation point. *)
Definition point : Type := val * val * val.

Definition points (xp yp zp : ndarray) : list point :=
  zip (zip (data xp) (data yp)) (data zp).

(** The array of shape [sh] whose element at each point [p] is [g p]. *)
Definition on (sh : list nat) (pts : list point) (g : point → val) : ndarray :=
  {| shape := sh; data := g <$> pts |}.

(** The calls to [_dircos] made by one iteration of the loop of [tf]. *)
Definition override_calls (sphere : option Sphere.t) : list call :=
  match sphere with
  | None => []
  | Some sphere =>
    match Sphere.props sphere !! "magnetization",
          Sphere.props sphere !! "inclination",
          Sphere.props sphere !! "declination" with
    | Some _, Some inclination, Some declination => [(inclination, declination)]
    | _, _, _ => []
    end
  end.

(** What one iteration of the loop of [tf] does to the element [acc] of the
    accumulator at the point [p]. *)
Definition tf_point (fx fy fz : val) (sphere : option Sphere.t)
    (p : point) (acc : val) : val :=
  match sphere with
  | None => acc
  | Some sphere =>
    match Sphere.props sphere !! "magnetization" with
    | None => acc
    | Some mag =>
      let radius := Sphere.radius sphere in
      let '(mx, my, mz) :=
        match Sphere.props sphere !! "inclination",
              Sphere.props sphere !! "declination" with
        | Some inclination, Some declination => _dircos inclination declination
        | _, _ => (fx, fy, fz)
        end in
      let x := (p.1.1 - Sphere.x sphere)%V in
      let y := (p.1.2 - Sphere.y sphere)%V in
      let z := (p.2 - Sphere.z sphere)%V in
      let dotprod := (mx * x + my * y + mz * z)%V in
      let r_sqr := (powi x 2 + powi y 2 + powi z 2)%V in
      let r5 := powf r_sqr (5 / 2) in
      let moment := (mag * Finite 4 * pi * powi radius 3 / Finite 3)%V in
      let bx := (moment * (Finite 3 * dotprod * x - r_sqr * mx) / r5)%V in
      let by_ := (moment * (Finite 3 * dotprod * y - r_sqr * my) / r5)%V in
      let bz := (moment * (Finite 3 * dotprod * z - r_sqr * mz) / r5)%V in
      (acc + (fx * bx + fy * by_ + fz * bz))%V
    end
  end.

(** The same for [gz]. *)
Definition gz_point (sphere : option Sphere.t) (p : point) (acc : val) : val :=
  match sphere with
  | None => acc
  | Some sphere =>
    match Sphere.props sphere !! "density" with
    | None => acc
    | Some density =>
      let radius := Sphere.radius sphere in
      let x := (p.1.1 - Sphere.x sphere)%V in
      let y := (p.1.2 - Sphere.y sphere)%V in
      let z := (p.2 - Sphere.z sphere)%V in
      let r_cb := powf (powi x 2 + powi y 2 + powi z 2)%V (3 / 2) in
      let mass := (density * Finite 4 * pi * powi radius 3 / Finite 3)%V in
      (acc + mass * z / r_cb)%V
    end
  end.

(** ** The formulas of the specification *)

(** Volume of a sphere, [(4/3)·π·radius³]. *)
Definition volume (radius : val) : val :=
  (Finite 4 / Finite 3 * pi * powi radius 3)%V.

(** The field of a dipole of direction [m] and moment [moment], at the
    point [(x, y, z)] of the frame centred on the dipole. *)
Definition dipole_field (m : vec3) (moment x y z : val) : vec3 :=
  let '(mx, my, mz) := m in
  let dot := (mx * x + my * y + mz * z)%V in
  let r2 := (powi x 2 + powi y 2 + powi z 2)%V in
  ((moment * (Finite 3 * dot * x - r2 * mx) / powf r2 (5 / 2))%V,
   (moment * (Finite 3 * dot * y - r2 * my) / powf r2 (5 / 2))%V,
   (moment * (Finite 3 * dot * z - r2 * mz) / powf r2 (5 / 2))%V).

(** Component of [b] along [f]. *)
Definition project (f b : vec3) : val :=
  let '(fx, fy, fz) := f in
  let '(bx, by_, bz) := b in
  (fx * bx + fy * by_ + fz * bz)%V.

(** The direction of the magnetization of a source: its own when it has both
    an inclination and a declination, the ambient one otherwise. *)
Definition magnetization_direction (ambient : vec3) (s : Sphere.t) : vec3 :=
  match Sphere.props s !! "inclination", Sphere.props s !! "declination" with
  | Some inclination, Some declination => _dircos inclination declination
  | _, _ => ambient
  end.

(** Contribution to the total-field anomaly at [p] of a source of the given
    magnetization. *)
Definition tf_contribution (ambient : vec3) (s : Sphere.t) (magnetization : val)
    (p : point) : val :=
  let x := (p.1.1 - Sphere.x s)%V in
  let y := (p.1.2 - Sphere.y s)%V in
  let z := (p.2 - Sphere.z s)%V in
  let moment := (magnetization * volume (Sphere.radius s))%V in
  project ambient (dipole_field (magnetization_direction ambient s) moment x y z).

(** Contribution to the vertical attraction at [p] of a source of the given
    density: [mass·z / r³]. *)
Definition gz_contribution (s : Sphere.t) (density : val) (p : point) : val :=
  let x := (p.1.1 - Sphere.x s)%V in
  let y := (p.1.2 - Sphere.y s)%V in
  let z := (p.2 - Sphere.z s)%V in
  let mass := (density * volume (Sphere.radius s))%V in
  let r3 := powf (powi x 2 + powi y 2 + powi z 2)%V (3 / 2) in
  (mass * z / r3)%V.

(** The contributing sources of a list for the property [key], each with the
    value of the property: the entries that are not null and have it. *)
Definition contributing (key : string) (spheres : list (option Sphere.t))
    : list (Sphere.t * val) :=
  omap (fun o => s ← o; v ← Sphere.props s !! key; Some (s, v)) spheres.

(** ** Skipped entries, sums, effects *)

(** An entry of the source list counts for the property [key] when it is not
    null and has the property. *)
Definition contributes (key : string) (o : option Sphere.t) : bool :=
  match o with
  | None => false
  | Some s => match Sphere.props s !! key with Some _ => true | None => false end
  end.

(** The elementwise sum of arrays of the shape of [zero], starting from
    [zero]. *)
Definition arr_sum (zero : ndarray) (outs : list ndarray) : ndarray :=
  foldl (fun a o => {| shape := shape a; data := zip_with add (data a) (data o) |})
        zero outs.

(** A computation on arrays only: it calls [_dircos] never and can only fail
    in a broadcast. *)
Definition array_step {A : Type} (m : M A) : Prop :=
  calls m = [] ∧ ∀ e, outcome m = Raise e → e = ValueError broadcast_msg.

(** ** Finite inputs and points on a centre *)





(** ** Data for the examples *)

(** The array [0., 1., ..., n-1.], of shape [(n,)]. *)
Definition arange (n : nat) : ndarray :=
  {| shape := [n]; data := (fun i => Finite (INR i)) <$> seq 0 n |}.

(** A single observation coordinate, of shape [(1,)]. *)
Definition at_coord (v : R) : ndarray :=
  {| shape := [1%nat]; data := [Finite v] |}.

(** A sphere at the origin with a density and an induced magnetization. *)
Definition ball : Sphere.t :=
  Sphere.make (Finite 0) (Finite 0) (Finite 0) (Finite 1000)
    {[ "density" := Finite 1000; "magnetization" := Finite 1 ]}.

(** A sphere with a magnetization direction of its own. *)
Definition magnet : Sphere.t :=
  Sphere.make (Finite 0) (Finite 0) (Finite 0) (Finite 500)
    {[ "magnetization" := Finite 1;
       "inclination" := Finite 30; "declination" := Finite 45 ]}.

(** ** Sources moved or rescaled *)

(** The source moved by the vector [(tx, ty, tz)]. *)
Definition shift_sphere (tx ty tz : val) (s : Sphere.t) : Sphere.t :=
  Sphere.make (Sphere.x s + tx)%V (Sphere.y s + ty)%V (Sphere.z s + tz)%V
    (Sphere.radius s) (Sphere.props s).

(** The same on an entry of a source list, null or not. *)
Definition shift_source (tx ty tz : val) (o : option Sphere.t) : option Sphere.t :=
  shift_sphere tx ty tz <$> o.

(** The source with its property [key], if any, multiplied by [k]. *)
Definition scale_prop (key : string) (k : val) (s : Sphere.t) : Sphere.t :=
  Sphere.make (Sphere.x s) (Sphere.y s) (Sphere.z s) (Sphere.radius s)
    (alter (fun v => (k * v)%V) key (Sphere.props s)).

(** The same on an entry of a source list. *)
Definition scale_source (key : string) (k : val) (o : option Sphere.t) : option Sphere.t :=
  scale_prop key k <$> o.

(** ** matplotlib, as the picking tools of [fatiando.ui.picker] use it *)

Module Mpl.

Inductive exn : Type :=
  | IndexError
  | ValueError (msg : string).

(** Where the mouse is when an event happens: in the axes of the tool, with
    its data coordinates, or elsewhere (in other axes, or in none: then
    [xdata] and [ydata] are [None]). *)
Inductive place : Type :=
  | Inside (xdata ydata : R)
  | Outside (xdata ydata : option R).

(** [event.xdata] and [event.ydata]. *)
Definition xdata_of (at_ : place) : option R :=
  match at_ with Inside xd _ => Some xd | Outside xd _ => xd end.

Definition ydata_of (at_ : place) : option R :=
  match at_ with Inside _ yd => Some yd | Outside _ yd => yd end.

(** The events the tools connect a callback to: [button_press_event],
    [key_press_event], [motion_notify_event]. *)
Inductive event : Type :=
  | ButtonPress (at_ : place) (button : Z)
  | KeyPress (key : string) (at_ : place)
  | Motion (at_ : place).

(** What a tool puts on its axes: the title, the limits, the grid, the data
    of its line and of its guide line, the filled polygons.  Colours and
    markers are left out, and so are [draw()], which repaints the canvas,
    and the messages of the logger: they change none of this. *)
Record canvas : Type := Canvas {
  title : string;
  xlim : option (R * R);
  ylim : option (R * R);
  grid : bool;
  line : list R * list R;
  tmpline : list (option R) * list (option R);
  fills : list (list R * list R)
}.

(** Fresh axes with the two lines [axes.plot] makes, the second one with
    the data [guide]. *)
Definition blank (guide : list (option R) * list (option R)) : canvas :=
  Canvas "" None None false ([], []) guide [].

(** A command of a callback on the state [S]: the state it leaves, and the
    exception it raises or the value it returns. *)
Definition cmd (S A : Type) : Type := S → S * (exn + A).

Definition ret {S A : Type} (a : A) : cmd S A := fun s => (s, inr a).
Definition raise {S A : Type} (e : exn) : cmd S A := fun s => (s, inl e).
Definition bind {S A B : Type} (m : cmd S A) (k : A → cmd S B) : cmd S B :=
  fun s => match m s with
           | (s', inr a) => k a s'
           | (s', inl e) => (s', inl e)
           end.

Notation "x <- m ;; k" := (bind m (fun x => k))
  (at level 100, m at next level, right associativity).
Notation "m ;; k" := (bind m (fun _ => k))
  (at level 100, right associativity).

(** A variable of the enclosing function that the callbacks share. *)
Record var (S A : Type) : Type := Var { rd : S → A; wr : A → S → S }.
Arguments Var {S A} rd wr.
Arguments rd {S A} v s.
Arguments wr {S A} v a s.

Definition read {S A : Type} (v : var S A) : cmd S A :=
  fun s => (s, inr (rd v s)).

Definition assign {S A : Type} (v : var S A) (a : A) : cmd S unit :=
  fun s => (wr v a s, inr tt).

(** [v.append(a)] *)
Definition append {S A : Type} (v : var S (list A)) (a : A) : cmd S unit :=
  fun s => (wr v (rd v s ++ [a]) s, inr tt).

(** [v.extend(l)] *)
Definition extend {S A : Type} (v : var S (list A)) (l : list A) : cmd S unit :=
  fun s => (wr v (rd v s ++ l) s, inr tt).

(** [v.pop()]: the last element, removed; [IndexError] on an empty list. *)
Definition pop {S A : Type} (v : var S (list A)) : cmd S A :=
  fun s => match last (rd v s) with
           | Some a => (wr v (removelast (rd v s)) s, inr a)
           | None => (s, inl IndexError)
           end.

(** [v[0]] and [v[-1]] *)
Definition first {S A : Type} (v : var S (list A)) : cmd S A :=
  fun s => match head (rd v s) with
           | Some a => (s, inr a)
           | None => (s, inl IndexError)
           end.

Definition final {S A : Type} (v : var S (list A)) : cmd S A :=
  fun s => match last (rd v s) with
           | Some a => (s, inr a)
           | None => (s, inl IndexError)
           end.

(** The calls on the axes and on the two lines. *)
Definition set_title {S : Type} (c : var S canvas) (t : string) : cmd S unit :=
  fun s => let a := rd c s in
           (wr c (Canvas t (xlim a) (ylim a) (grid a) (line a) (tmpline a) (fills a)) s, inr tt).

Definition set_xlim {S : Type} (c : var S canvas) (lo hi : R) : cmd S unit :=
  fun s => let a := rd c s in
           (wr c (Canvas (title a) (Some (lo, hi)) (ylim a) (grid a) (line a) (tmpline a)
                    (fills a)) s, inr tt).

Definition set_ylim {S : Type} (c : var S canvas) (lo hi : R) : cmd S unit :=
  fun s => let a := rd c s in
           (wr c (Canvas (title a) (xlim a) (Some (lo, hi)) (grid a) (line a) (tmpline a)
                    (fills a)) s, inr tt).

Definition set_grid {S : Type} (c : var S canvas) : cmd S unit :=
  fun s => let a := rd c s in
           (wr c (Canvas (title a) (xlim a) (ylim a) true (line a) (tmpline a) (fills a)) s,
            inr tt).

Definition line_set_data {S : Type} (c : var S canvas) (xs ys : list R) : cmd S unit :=
  fun s => let a := rd c s in
           (wr c (Canvas (title a) (xlim a) (ylim a) (grid a) (xs, ys) (tmpline a) (fills a)) s,
            inr tt).

Definition tmpline_set_data {S : Type} (c : var S canvas) (xs ys : list (option R))
    : cmd S unit :=
  fun s => let a := rd c s in
           (wr c (Canvas (title a) (xlim a) (ylim a) (grid a) (line a) (xs, ys) (fills a)) s,
            inr tt).

Definition fill {S : Type} (c : var S canvas) (xs ys : list R) : cmd S unit :=
  fun s => let a := rd c s in
           (wr c (Canvas (title a) (xlim a) (ylim a) (grid a) (line a) (tmpline a)
                    (fills a ++ [(xs, ys)])) s, inr tt).

(** [pyplot.show()]: the event loop, which hands each event of the session
    to the callback connected to it, until the window is closed.  What the
    loop does when a callback raises is decided by the GUI toolkit, not by
    the source: with [resume] it reports the exception and goes on, without
    it the exception leaves [show()]. *)
Fixpoint show {S : Type} (resume : bool) (callback : event → cmd S unit)
    (events : list event) : cmd S unit :=
  match events with
  | [] => ret tt
  | ev :: rest =>
      fun s => match callback ev s with
               | (s', inr _) => show resume callback rest s'
               | (s', inl e) =>
                   if resume then show resume callback rest s' else (s', inl e)
               end
  end.

(** The result of [numpy.transpose([a, b])]: the rows [[a_i, b_i]] when the
    two lists have one length; lists of two lengths make no such array. *)
Inductive array2 : Type :=
  | Rows (rows : list (R * R))
  | Ragged (a b : list R).

Definition transpose2 (a b : list R) : array2 :=
  if bool_decide (length a = length b) then Rows (zip a b) else Ragged a b.

End Mpl.

(** ** [draw_polygon] *)

Module DrawPolygon.
Import Mpl.

(** The variables the callbacks share, and the axes. *)
Record state : Type := State {
  x : list R;
  y : list R;
  plotx : list R;
  ploty : list R;
  picking : bool;
  axes : canvas
}.

Definition v_x : var state (list R) :=
  Var x (fun v s => State v (y s) (plotx s) (ploty s) (picking s) (axes s)).
Definition v_y : var state (list R) :=
  Var y (fun v s => State (x s) v (plotx s) (ploty s) (picking s) (axes s)).
Definition v_plotx : var state (list R) :=
  Var plotx (fun v s => State (x s) (y s) v (ploty s) (picking s) (axes s)).
Definition v_ploty : var state (list R) :=
  Var ploty (fun v s => State (x s) (y s) (plotx s) v (picking s) (axes s)).
Definition v_picking : var state bool :=
  Var picking (fun v s => State (x s) (y s) (plotx s) (ploty s) v (axes s)).
Definition v_axes : var state canvas :=
  Var axes (fun v s => State (x s) (y s) (plotx s) (ploty s) (picking s) v).

Definition draw_guide (px py : option R) : cmd state unit :=
  xs <- read v_x ;;
  if bool_decide (length xs ≠ 0%nat) then
    x1 <- final v_x ;;
    y1 <- final v_y ;;
    tmpline_set_data v_axes [Some x1; px] [Some y1; py]
  else ret tt.

Definition move (at_ : place) : cmd state unit :=
  match at_ with
  | Outside _ _ => ret tt
  | Inside xdata ydata =>
      p <- read v_picking ;;
      if p then draw_guide (Some xdata) (Some ydata) else ret tt
  end.

Definition pick (at_ : place) (button : Z) : cmd state unit :=
  match at_ with
  | Outside _ _ => ret tt
  | Inside xdata ydata =>
      p <- read v_picking ;;
      (if (button =? 1)%Z && p then
         append v_x xdata ;;
         append v_y ydata ;;
         append v_plotx xdata ;;
         append v_ploty ydata
       else ret tt) ;;
      p <- read v_picking ;;
      (if (button =? 3)%Z || (button =? 2)%Z && p then
         xs <- read v_x ;;
         if bool_decide (length xs < 3)%nat then
           set_title v_axes "Need at least 3 points to make a polygon"
         else
           assign v_picking false ;;
           set_title v_axes "Done! You can close the window now." ;;
           x0 <- first v_x ;;
           append v_plotx x0 ;;
           y0 <- first v_y ;;
           append v_ploty y0 ;;
           tmpline_set_data v_axes [] [] ;;
           px <- read v_plotx ;;
           py <- read v_ploty ;;
           fill v_axes px py
       else ret tt) ;;
      px <- read v_plotx ;;
      py <- read v_ploty ;;
      line_set_data v_axes px py
  end.

Definition erase (key : string) (at_ : place) : cmd state unit :=
  p <- read v_picking ;;
  if String.eqb key "e" && p then
    pop v_x ;;
    pop v_y ;;
    pop v_plotx ;;
    pop v_ploty ;;
    px <- read v_plotx ;;
    py <- read v_ploty ;;
    line_set_data v_axes px py ;;
    draw_guide (xdata_of at_) (ydata_of at_)
  else ret tt.

(** The callback connected to each kind of event. *)
Definition callback (ev : event) : cmd state unit :=
  match ev with
  | ButtonPress at_ button => pick at_ button
  | KeyPress key at_ => erase key at_
  | Motion at_ => move at_
  end.

(** [draw_polygon(area, axes, xy2ne=...)] in a session where the user
    produces [events]: the state it ends in and what it returns or
    raises. *)
Definition draw_polygon (resume : bool) (area : R * R * R * R) (xy2ne : bool)
    (events : list event) : state * (exn + array2) :=
  let '(a0, a1, a2, a3) := area in
  (set_title v_axes "Click to draw polygon. Right click when done." ;;
   (if xy2ne then set_xlim v_axes a2 a3 ;; set_ylim v_axes a0 a1
    else set_xlim v_axes a0 a1 ;; set_ylim v_axes a2 a3) ;;
   show resume callback events ;;
   xs <- read v_x ;;
   if bool_decide (length xs < 3)%nat then
     raise (ValueError "Need at least 3 points to make a polygon")
   else
     xs <- read v_x ;;
     ys <- read v_y ;;
     ret (if xy2ne then transpose2 ys xs else transpose2 xs ys))
    (State [] [] [] [] true (blank ([], []))).

(** *** Vocabulary of the properties *)

Definition need3 : string := "Need at least 3 points to make a polygon".

(** The state in which the event loop starts. *)
Definition start (area : R * R * R * R) (xy2ne : bool) : state :=
  let '(a0, a1, a2, a3) := area in
  State [] [] [] [] true
    (Canvas "Click to draw polygon. Right click when done."
       (Some (if xy2ne then (a2, a3) else (a0, a1)))
       (Some (if xy2ne then (a0, a1) else (a2, a3)))
       false ([], []) ([], []) []).

(** What [draw_polygon] does once the window is closed. *)
Definition finish (xy2ne : bool) (s : state) : exn + array2 :=
  if bool_decide (length (x s) < 3)%nat then inl (ValueError need3)
  else inr (if xy2ne then transpose2 (y s) (x s) else transpose2 (x s) (y s)).

(** What the callbacks keep true of the shared variables. *)
Definition inv (s : state) : Prop :=
  length (x s) = length (y s)
  ∧ line (axes s) = (plotx s, ploty s)
  ∧ if picking s then plotx s = x s ∧ ploty s = y s
    else (3 ≤ length (x s))%nat
         ∧ ∃ n x0 y0, head (x s) = Some x0 ∧ head (y s) = Some y0
                      ∧ plotx s = x s ++ replicate (S n) x0
                      ∧ ploty s = y s ++ replicate (S n) y0.

(** A session of left clicks in the axes. *)
Definition clicks (pts : list (R * R)) : list event :=
  (fun p => ButtonPress (Inside p.1 p.2) 1) <$> pts.

End DrawPolygon.

(** ** [points] *)

Module PickPoints.
Import Mpl.

Record state : Type := State {
  x : list R;
  y : list R;
  plotx : list R;
  ploty : list R;
  picking : bool;
  axes : canvas
}.

Definition v_x : var state (list R) :=
  Var x (fun v s => State v (y s) (plotx s) (ploty s) (picking s) (axes s)).
Definition v_y : var state (list R) :=
  Var y (fun v s => State (x s) v (plotx s) (ploty s) (picking s) (axes s)).
Definition v_plotx : var state (list R) :=
  Var plotx (fun v s => State (x s) (y s) v (ploty s) (picking s) (axes s)).
Definition v_ploty : var state (list R) :=
  Var ploty (fun v s => State (x s) (y s) (plotx s) v (picking s) (axes s)).
Definition v_picking : var state bool :=
  Var picking (fun v s => State (x s) (y s) (plotx s) (ploty s) v (axes s)).
Definition v_axes : var state canvas :=
  Var axes (fun v s => State (x s) (y s) (plotx s) (ploty s) (picking s) v).

Definition pick (at_ : place) (button : Z) : cmd state unit :=
  match at_ with
  | Outside _ _ => ret tt
  | Inside xdata ydata =>
      p <- read v_picking ;;
      if (button =? 1)%Z && p then
        append v_x xdata ;;
        append v_y ydata ;;
        append v_plotx xdata ;;
        append v_ploty ydata ;;
        px <- read v_plotx ;;
        py <- read v_ploty ;;
        line_set_data v_axes px py
      else ret tt
  end.

Definition erase (key : string) : cmd state unit :=
  p <- read v_picking ;;
  if String.eqb key "e" && p then
    pop v_x ;;
    pop v_y ;;
    pop v_plotx ;;
    pop v_ploty ;;
    px <- read v_plotx ;;
    py <- read v_ploty ;;
    line_set_data v_axes px py
  else ret tt.

(** No callback is connected to the motion of the mouse. *)
Definition callback (ev : event) : cmd state unit :=
  match ev with
  | ButtonPress at_ button => pick at_ button
  | KeyPress key _ => erase key
  | Motion _ => ret tt
  end.

Definition points (resume : bool) (area : R * R * R * R) (events : list event)
    : state * (exn + array2) :=
  let '(a0, a1, a2, a3) := area in
  (set_title v_axes "Click to pick points. Close window when done." ;;
   set_xlim v_axes a0 a1 ;;
   set_ylim v_axes a2 a3 ;;
   show resume callback events ;;
   xs <- read v_x ;;
   ys <- read v_y ;;
   ret (transpose2 xs ys))
    (State [] [] [] [] true (blank ([], []))).

(** *** Vocabulary of the properties *)

(** The points a session leaves: a left click in the axes adds one, the key
    'e' takes the last one away. *)
Definition picked_step (pts : list (R * R)) (ev : event) : list (R * R) :=
  match ev with
  | ButtonPress (Inside a b) button => if (button =? 1)%Z then pts ++ [(a, b)] else pts
  | KeyPress key _ => if String.eqb key "e" then removelast pts else pts
  | _ => pts
  end.

Definition picked (events : list event) : list (R * R) := foldl picked_step [] events.

(** The shared variables hold the points [pts]. *)
Definition holds (s : state) (pts : list (R * R)) : Prop :=
  x s = pts.*1 ∧ y s = pts.*2 ∧ plotx s = pts.*1 ∧ ploty s = pts.*2
  ∧ picking s = true ∧ line (axes s) = (pts.*1, pts.*2).

End PickPoints.

(** ** [draw_layers] *)

Module DrawLayers.
Import Mpl.

(** [tmpz] and [picking] are one-element lists in the source, used as
    cells that the callbacks can assign. *)
Record state : Type := State {
  depths : list R;
  values : list R;
  plotv : list R;
  plotz : list R;
  tmpz : R;
  picking : bool;
  axes : canvas
}.

Definition v_depths : var state (list R) :=
  Var depths (fun v s => State v (values s) (plotv s) (plotz s) (tmpz s) (picking s) (axes s)).
Definition v_values : var state (list R) :=
  Var values (fun v s => State (depths s) v (plotv s) (plotz s) (tmpz s) (picking s) (axes s)).
Definition v_plotv : var state (list R) :=
  Var plotv (fun v s => State (depths s) (values s) v (plotz s) (tmpz s) (picking s) (axes s)).
Definition v_plotz : var state (list R) :=
  Var plotz (fun v s => State (depths s) (values s) (plotv s) v (tmpz s) (picking s) (axes s)).
Definition v_tmpz : var state R :=
  Var tmpz (fun v s => State (depths s) (values s) (plotv s) (plotz s) v (picking s) (axes s)).
Definition v_picking : var state bool :=
  Var picking (fun v s => State (depths s) (values s) (plotv s) (plotz s) (tmpz s) v (axes s)).
Definition v_axes : var state canvas :=
  Var axes (fun v s => State (depths s) (values s) (plotv s) (plotz s) (tmpz s) (picking s) v).

(** [z > t] where [z] is a float or [None]: in Python 2 [None] is smaller
    than every number. *)
Definition deeper (z : option R) (t : R) : bool :=
  match z with
  | Some z => if Rlt_dec t z then true else false
  | None => false
  end.

Definition draw_guide (v z : option R) : cmd state unit :=
  vs <- read v_values ;;
  if bool_decide (length vs = 0%nat) then
    t <- read v_tmpz ;;
    tmpline_set_data v_axes [v; v] [Some t; z]
  else
    t <- read v_tmpz ;;
    if deeper z t then
      v1 <- final v_values ;;
      tmpline_set_data v_axes [Some v1; v; v] [Some t; Some t; z]
    else
      v1 <- final v_values ;;
      tmpline_set_data v_axes [Some v1; v] [Some t; Some t].

Definition move (at_ : place) : cmd state unit :=
  match at_ with
  | Outside _ _ => ret tt
  | Inside v z =>
      p <- read v_picking ;;
      if p then draw_guide (Some v) (Some z) else ret tt
  end.

Definition pick (at_ : place) (button : Z) : cmd state unit :=
  match at_ with
  | Outside _ _ => ret tt
  | Inside v z =>
      p <- read v_picking ;;
      if (button =? 1)%Z && p then
        t <- read v_tmpz ;;
        if deeper (Some z) t then
          append v_depths z ;;
          append v_values v ;;
          t <- read v_tmpz ;;
          extend v_plotz [t; z] ;;
          extend v_plotv [v; v] ;;
          assign v_tmpz z ;;
          pv <- read v_plotv ;;
          pz <- read v_plotz ;;
          line_set_data v_axes pv pz
        else ret tt
      else ret tt
  end.

Definition erase (key : string) (at_ : place) : cmd state unit :=
  p <- read v_picking ;;
  vs <- read v_values ;;
  if p && bool_decide (0 < length vs)%nat && String.eqb key "e" then
    pop v_depths ;;
    pop v_values ;;
    d <- final v_depths ;;
    assign v_tmpz d ;;
    pop v_plotv ;;
    pop v_plotv ;;
    pop v_plotz ;;
    pop v_plotz ;;
    pv <- read v_plotv ;;
    pz <- read v_plotz ;;
    line_set_data v_axes pv pz ;;
    draw_guide (xdata_of at_) (ydata_of at_)
  else ret tt.

Definition callback (ev : event) : cmd state unit :=
  match ev with
  | ButtonPress at_ button => pick at_ button
  | KeyPress key at_ => erase key at_
  | Motion at_ => move at_
  end.

(** [depths[i]] *)
Definition item (i : nat) : cmd state R :=
  fun s => match depths s !! i with
           | Some d => (s, inr d)
           | None => (s, inl IndexError)
           end.

(** [[f(i) for i in l]] *)
Fixpoint comprehension {A B : Type} (f : A → cmd state B) (l : list A)
    : cmd state (list B) :=
  match l with
  | [] => ret []
  | a :: l' => b <- f a ;; bs <- comprehension f l' ;; ret (b :: bs)
  end.

(** The thickness [depths[i + 1] - depths[i]] is the exact difference here;
    the code rounds it to a double. *)
Definition draw_layers (resume : bool) (area : R * R * R * R) (events : list event)
    : state * (exn + (list R * list R)) :=
  let '(vmin, vmax, zmin, zmax) := area in
  let midv := 0.5 * (vmax + vmin) in
  (set_title v_axes "Click to set a layer. Close the window when done." ;;
   set_grid v_axes ;;
   set_xlim v_axes vmin vmax ;;
   set_ylim v_axes zmax zmin ;;
   show resume callback events ;;
   ds <- read v_depths ;;
   thickness <- comprehension
                  (fun i => a <- item (i + 1) ;; b <- item i ;; ret (a - b))
                  (seq 0 (length ds - 1)) ;;
   vs <- read v_values ;;
   ret (thickness, vs))
    (State [zmin] [] [] [] zmin true (blank ([Some midv], [Some zmin]))).

(** *** Vocabulary of the properties *)

(** Differences between neighbours: [l[i+1] - l[i]]. *)
Definition diffs (l : list R) : list R := zip_with Rminus (tail l) l.

(** Each element is smaller than the next. *)
Definition increasing (l : list R) : Prop :=
  ∀ i a b, l !! i = Some a → l !! S i = Some b → a < b.

(** What the callbacks keep true of the shared variables. *)
Definition inv (zmin : R) (s : state) : Prop :=
  picking s = true
  ∧ head (depths s) = Some zmin
  ∧ last (depths s) = Some (tmpz s)
  ∧ length (depths s) = S (length (values s))
  ∧ increasing (depths s)
  ∧ (length (plotv s) = 2 * length (values s))%nat
  ∧ (length (plotz s) = 2 * length (values s))%nat
  ∧ line (axes s) = (plotv s, plotz s).

(** The state in which the event loop starts. *)
Definition start (area : R * R * R * R) : state :=
  let '(vmin, vmax, zmin, zmax) := area in
  State [zmin] [] [] [] zmin true
    (Canvas "Click to set a layer. Close the window when done."
       (Some (vmin, vmax)) (Some (zmax, zmin)) true ([], [])
       ([Some (0.5 * (vmax + vmin))], [Some zmin]) []).

(** The clicks of a session of left clicks that make a layer: those deeper
    than the bottom of the layers made before. *)
Fixpoint accepted (bottom : R) (pts : list (R * R)) : list (R * R) :=
  match pts with
  | [] => []
  | (v, z) :: rest =>
      if Rlt_dec bottom z then (v, z) :: accepted z rest else accepted bottom rest
  end.

Definition clicks (pts : list (R * R)) : list event :=
  (fun p => ButtonPress (Inside p.1 p.2) 1) <$> pts.

End DrawLayers.

(** * Part II: properties *)

(** ** Properties of the value model *)

Lemma div_finite (x y : R) : y ≠ 0 → (Finite x / Finite y)%V = Finite (x / y).
Proof.
  intros Hy. unfold div. destruct (Req_dec_T y 0) as [E|_]; [contradiction|reflexivity].
Qed.

Lemma div_zero (a : val) : (a / Finite 0)%V = NonFinite.
Proof.
  destruct a as [x|]; simpl; [|reflexivity].
  destruct (Req_dec_T 0 0) as [_|N]; [reflexivity|contradiction N; reflexivity].
Qed.

Lemma d2r_finite : (pi / Finite 180)%V = Finite (PI / 180).
Proof. apply div_finite. lra. Qed.

(** ** The direction-cosine resolver *)

Lemma dircos_finite_angles (inc dec : R) :
  _dircos (Finite inc) (Finite dec)
  = (Finite (cos (inc * PI / 180) * cos (dec * PI / 180)),
     Finite (cos (inc * PI / 180) * sin (dec * PI / 180)),
     Finite (sin (inc * PI / 180))).
Proof.
  unfold _dircos. rewrite d2r_finite. simpl.
  replace (PI / 180 * inc) with (inc * PI / 180) by lra.
  replace (PI / 180 * dec) with (dec * PI / 180) by lra.
  reflexivity.
Qed.

(** C5: for finite angles in degrees, [_dircos] returns exactly
    (cos inc' cos dec', cos inc' sin dec', sin inc') with inc' = inc*pi/180
    and dec' = dec*pi/180: three finite components; the call raises
    nothing and does nothing else. *)
Theorem dircos_formula (inc dec : R) :
  _dircos (Finite inc) (Finite dec)
  = (Finite (cos (inc * PI / 180) * cos (dec * PI / 180)),
     Finite (cos (inc * PI / 180) * sin (dec * PI / 180)),
     Finite (sin (inc * PI / 180)))
  ∧ call_dircos (Finite inc) (Finite dec)
    = ([(Finite inc, Finite dec)],
       Ok (Finite (cos (inc * PI / 180) * cos (dec * PI / 180)),
           Finite (cos (inc * PI / 180) * sin (dec * PI / 180)),
           Finite (sin (inc * PI / 180)))).
Proof.
  unfold call_dircos. rewrite dircos_finite_angles. split; reflexivity.
Qed.

(** C6: over real arithmetic the vector returned by [_dircos] has
    Euclidean length exactly 1. *)
Theorem dircos_unit_length (inc dec : R) :
  norm2 (_dircos (Finite inc) (Finite dec)) = Finite 1
  ∧ lift1 sqrt (norm2 (_dircos (Finite inc) (Finite dec))) = Finite 1.
Proof.
  assert (H : norm2 (_dircos (Finite inc) (Finite dec)) = Finite 1).
  { unfold _dircos. rewrite d2r_finite. simpl. f_equal.
    set (a := PI / 180 * inc). set (b := PI / 180 * dec).
    pose proof (sin2_cos2 a) as Ha. pose proof (sin2_cos2 b) as Hb.
    unfold Rsqr in Ha, Hb. nra. }
  split; [exact H|]. rewrite H. simpl. f_equal. apply sqrt_1.
Qed.

(** ** The monad *)

Lemma bind_ret_l {A B} (a : A) (k : A → M B) : bind (ret a) k = k a.
Proof. unfold bind, ret. destruct (k a); reflexivity. Qed.

Lemma bind_raise {A B} (e : exn) (k : A → M B) : bind (raise e) k = raise e.
Proof. reflexivity. Qed.

Lemma bind_ok {A B} (l : list call) (a : A) (k : A → M B) :
  bind (l, Ok a) k = (l ++ calls (k a), outcome (k a)).
Proof. unfold bind, calls, outcome. destruct (k a); reflexivity. Qed.

(** ** Broadcasting *)

Example broadcast_shapes_examples :
  broadcast_shapes [2; 1]%nat [3]%nat = Some [2; 3]%nat
  ∧ broadcast_shapes [3]%nat [1]%nat = Some [3]%nat
  ∧ broadcast_shapes [3]%nat [4]%nat = None
  ∧ broadcast_shapes [2; 3]%nat [2]%nat = None.
Proof. repeat split. Qed.

Example broadcast_to_examples :
  broadcast_to [2; 1]%nat [2; 3]%nat [10; 20]%nat = [10; 10; 10; 20; 20; 20]%nat
  ∧ broadcast_to [3]%nat [2; 3]%nat [1; 2; 3]%nat = [1; 2; 3; 1; 2; 3]%nat
  ∧ broadcast_to [1]%nat [3]%nat [7]%nat = [7; 7; 7]%nat.
Proof. repeat split. Qed.

(** Between two arrays of one shape nothing is repeated. *)
Lemma pad_length (s : list nat) : pad (length s) s = s.
Proof. unfold pad. rewrite Nat.sub_diag. reflexivity. Qed.

Lemma broadcast_dims_same (s : list nat) : broadcast_dims s s = Some s.
Proof.
  induction s as [|m s IH]; simpl; [reflexivity|].
  rewrite IH. unfold broadcast_dim. rewrite decide_True by reflexivity. reflexivity.
Qed.

Lemma broadcast_shapes_same (s : list nat) : broadcast_shapes s s = Some s.
Proof.
  unfold broadcast_shapes. rewrite Nat.max_id, pad_length.
  apply broadcast_dims_same.
Qed.

Lemma chunks_join {A} (k n : nat) (d : list A) :
  length d = (k * n)%nat → mjoin (chunks k n d) = d.
Proof.
  revert d. induction k as [|k IH]; intros d Hd; simpl in *.
  - symmetry. apply nil_length_inv. exact Hd.
  - rewrite IH; [apply take_drop|]. rewrite length_drop. lia.
Qed.

Lemma chunks_length {A} (k n : nat) (d : list A) :
  length d = (k * n)%nat → Forall (fun c => length c = n) (chunks k n d).
Proof.
  revert d. induction k as [|k IH]; intros d Hd; simpl in *; constructor.
  - rewrite length_take. lia.
  - apply IH. rewrite length_drop. lia.
Qed.

Lemma expand_same {A} (s : list nat) (d : list A) :
  length d = size_of s → expand s s d = d.
Proof.
  revert d. induction s as [|m s IH]; intros d Hd; simpl in *; [reflexivity|].
  rewrite decide_True by reflexivity.
  rewrite <- (chunks_join m (size_of s) d Hd) at 2. f_equal.
  rewrite <- (list_fmap_id (chunks m (size_of s) d)) at 2.
  apply Forall_fmap_ext_1. eapply Forall_impl; [apply chunks_length, Hd|].
  intros c Hc. simpl. apply IH, Hc.
Qed.

Lemma broadcast_to_same {A} (s : list nat) (d : list A) :
  length d = size_of s → broadcast_to s s d = d.
Proof. intros Hd. unfold broadcast_to. rewrite pad_length. apply expand_same, Hd. Qed.

Lemma arr_op_same (f : val → val → val) (a b : ndarray) :
  shape a = shape b → wf a → wf b →
  arr_op f a b = ret {| shape := shape a; data := zip_with f (data a) (data b) |}.
Proof.
  unfold wf, arr_op. intros Hs Ha Hb. rewrite <- Hs in *.
  rewrite broadcast_shapes_same, !broadcast_to_same by assumption. reflexivity.
Qed.

(** ** Arrays of one shape *)

Lemma zip_with_fmap_same {A : Type} (f : val → val → val) (g h : A → val) (l : list A) :
  zip_with f (g <$> l) (h <$> l) = (fun p => f (g p) (h p)) <$> l.
Proof. induction l as [|p l IH]; simpl; [reflexivity|]. f_equal. exact IH. Qed.

Section SameShape.
Variables (sh : list nat) (pts : list point).
Hypothesis Hpts : length pts = size_of sh.

Lemma arr_map_on (f : val → val) (g : point → val) :
  arr_map f (on sh pts g) = on sh pts (fun p => f (g p)).
Proof. unfold arr_map, on. simpl. rewrite <- list_fmap_compose. reflexivity. Qed.

Lemma arr_op_on (f : val → val → val) (g h : point → val) :
  arr_op f (on sh pts g) (on sh pts h) = ret (on sh pts (fun p => f (g p) (h p))).
Proof.
  rewrite arr_op_same; [|reflexivity|unfold wf, on; simpl; rewrite length_fmap; exact Hpts..].
  unfold on. simpl. rewrite zip_with_fmap_same. reflexivity.
Qed.

Lemma zeros_like_on (g : point → val) :
  zeros_like (on sh pts g) = on sh pts (fun _ => Finite 0).
Proof.
  unfold zeros_like, on. simpl. f_equal. rewrite <- Hpts.
  clear Hpts. induction pts as [|p l IH]; simpl; [reflexivity|]. f_equal. exact IH.
Qed.
End SameShape.

Lemma on_points (xp yp zp : ndarray) :
  shape xp = shape yp → shape yp = shape zp → wf xp → wf yp → wf zp →
  let pts := points xp yp zp in
  length pts = size_of (shape xp)
  ∧ xp = on (shape xp) pts (fun p => p.1.1)
  ∧ yp = on (shape xp) pts (fun p => p.1.2)
  ∧ zp = on (shape xp) pts (fun p => p.2).
Proof.
  unfold wf. destruct xp as [s dx], yp as [sy dy], zp as [sz dz]. simpl.
  intros <- <- Hx Hy Hz. unfold points, on. simpl.
  repeat split.
  - rewrite !length_zip_with. lia.
  - f_equal. transitivity ((zip (zip dx dy) dz).*1.*1).
    + rewrite !fst_zip; [reflexivity|lia|]. rewrite length_zip_with. lia.
    + symmetry. apply (list_fmap_compose fst fst).
  - f_equal. transitivity ((zip (zip dx dy) dz).*1.*2).
    + rewrite fst_zip, snd_zip; [reflexivity|lia|]. rewrite length_zip_with. lia.
    + symmetry. apply (list_fmap_compose fst snd).
  - f_equal. change (dz = (zip (zip dx dy) dz).*2).
    rewrite snd_zip; [reflexivity|]. rewrite length_zip_with. lia.
Qed.

(** ** The loops, point by point *)

Section Vectorised.
Variables G SI2MGAL CM T2NT : R.
Variables (sh : list nat) (pts : list point).
Hypothesis Hpts : length pts = size_of sh.

Local Abbreviation X := (on sh pts (fun p => p.1.1)).
Local Abbreviation Y := (on sh pts (fun p => p.1.2)).
Local Abbreviation Z := (on sh pts (fun p => p.2)).

Ltac vectorise :=
  repeat first
    [ rewrite arr_map_on
    | rewrite (arr_op_on sh pts Hpts)
    | rewrite bind_ret_l
    | progress cbv beta ].

Lemma tf_body_on (fx fy fz : val) (g : point → val) (sphere : option Sphere.t) :
  tf_body fx fy fz X Y Z (on sh pts g) sphere
  = (override_calls sphere,
     Ok (on sh pts (fun p => tf_point fx fy fz sphere p (g p)))).
Proof.
  destruct sphere as [s|]; [|reflexivity].
  unfold tf_body, tf_point, override_calls.
  destruct (Sphere.props s !! "magnetization") as [mag|]; [|reflexivity].
  destruct (Sphere.props s !! "inclination") as [i|],
           (Sphere.props s !! "declination") as [d|].
  1: unfold call_dircos; rewrite bind_ok;
     destruct (_dircos i d) as [[mx my] mz].
  2-4: rewrite bind_ret_l.
  all: cbv beta iota zeta; vectorise; reflexivity.
Qed.

Lemma gz_body_on (g : point → val) (sphere : option Sphere.t) :
  gz_body X Y Z (on sh pts g) sphere
  = ret (on sh pts (fun p => gz_point sphere p (g p))).
Proof.
  destruct sphere as [s|]; [|reflexivity].
  unfold gz_body, gz_point.
  destruct (Sphere.props s !! "density") as [density|]; [|reflexivity].
  cbv beta iota zeta; vectorise; reflexivity.
Qed.

Lemma tf_loop_on (fx fy fz : val) (spheres : list (option Sphere.t)) (g : point → val) :
  for_each (tf_body fx fy fz X Y Z) spheres (on sh pts g)
  = (flat_map override_calls spheres,
     Ok (on sh pts (fun p => foldl (fun acc s => tf_point fx fy fz s p acc) (g p) spheres))).
Proof.
  revert g. induction spheres as [|s l IH]; intros g; simpl; [reflexivity|].
  rewrite tf_body_on, bind_ok, IH. reflexivity.
Qed.

Lemma gz_loop_on (spheres : list (option Sphere.t)) (g : point → val) :
  for_each (gz_body X Y Z) spheres (on sh pts g)
  = ret (on sh pts (fun p => foldl (fun acc s => gz_point s p acc) (g p) spheres)).
Proof.
  revert g. induction spheres as [|s l IH]; intros g; simpl; [reflexivity|].
  rewrite gz_body_on, bind_ret_l, IH. reflexivity.
Qed.

Lemma shape_check_on (g h k : point → val) :
  shape_check (on sh pts g) (on sh pts h) (on sh pts k) = false.
Proof. unfold shape_check. simpl. rewrite bool_decide_false; [reflexivity|]. intros N. apply N. reflexivity. Qed.

Lemma tf_on (spheres : list (option Sphere.t)) (inc dec : val) :
  tf CM T2NT X Y Z spheres inc dec
  = ((inc, dec) :: flat_map override_calls spheres,
     Ok (on sh pts (fun p =>
           (Finite CM * Finite T2NT
            * foldl (fun acc s =>
                       tf_point (_dircos inc dec).1.1 (_dircos inc dec).1.2
                                (_dircos inc dec).2 s p acc)
                    (Finite 0) spheres)%V))).
Proof.
  unfold tf. rewrite shape_check_on. cbv zeta.
  rewrite (zeros_like_on sh pts Hpts).
  unfold call_dircos. rewrite bind_ok.
  destruct (_dircos inc dec) as [[fx fy] fz]. cbv beta iota.
  rewrite tf_loop_on, bind_ok, arr_map_on. simpl.
  rewrite app_nil_r. reflexivity.
Qed.

Lemma gz_on (spheres : list (option Sphere.t)) :
  gz G SI2MGAL X Y Z spheres
  = ret (on sh pts (fun p =>
           (Finite G * Finite SI2MGAL
            * foldl (fun acc s => gz_point s p acc) (Finite 0) spheres)%V)).
Proof.
  unfold gz. rewrite shape_check_on. cbv zeta.
  rewrite (zeros_like_on sh pts Hpts).
  rewrite gz_loop_on, bind_ret_l, arr_map_on. reflexivity.
Qed.
End Vectorised.

(** ** The evaluators on observation arrays of one shape *)

Section OneShape.
Variables G SI2MGAL CM T2NT : R.
Variables xp yp zp : ndarray.
Hypothesis Hxy : shape xp = shape yp.
Hypothesis Hyz : shape yp = shape zp.
Hypothesis Wx : wf xp.
Hypothesis Wy : wf yp.
Hypothesis Wz : wf zp.

Lemma tf_one_shape (spheres : list (option Sphere.t)) (inc dec : val) :
  tf CM T2NT xp yp zp spheres inc dec
  = ((inc, dec) :: flat_map override_calls spheres,
     Ok (on (shape xp) (points xp yp zp) (fun p =>
           (Finite CM * Finite T2NT
            * foldl (fun acc s =>
                       tf_point (_dircos inc dec).1.1 (_dircos inc dec).1.2
                                (_dircos inc dec).2 s p acc)
                    (Finite 0) spheres)%V))).
Proof.
  destruct (on_points xp yp zp Hxy Hyz Wx Wy Wz) as (Hlen & Hx & Hy & Hz).
  pose proof (tf_on CM T2NT _ _ Hlen spheres inc dec) as H.
  rewrite <- Hx, <- Hy, <- Hz in H. exact H.
Qed.

Lemma gz_one_shape (spheres : list (option Sphere.t)) :
  gz G SI2MGAL xp yp zp spheres
  = ret (on (shape xp) (points xp yp zp) (fun p =>
           (Finite G * Finite SI2MGAL
            * foldl (fun acc s => gz_point s p acc) (Finite 0) spheres)%V)).
Proof.
  destruct (on_points xp yp zp Hxy Hyz Wx Wy Wz) as (Hlen & Hx & Hy & Hz).
  pose proof (gz_on G SI2MGAL _ _ Hlen spheres) as H.
  rewrite <- Hx, <- Hy, <- Hz in H. exact H.
Qed.

Lemma points_lookup (i : nat) (px py pz : val) :
  data xp !! i = Some px → data yp !! i = Some py → data zp !! i = Some pz →
  points xp yp zp !! i = Some (px, py, pz).
Proof.
  intros Hx Hy Hz. unfold points. rewrite !lookup_zip_with, Hx, Hy, Hz. reflexivity.
Qed.

Lemma on_lookup (sh : list nat) (g : point → val) (i : nat) (p : point) :
  points xp yp zp !! i = Some p →
  data (on sh (points xp yp zp) g) !! i = Some (g p).
Proof. intros Hp. unfold on. simpl. rewrite list_lookup_fmap, Hp. reflexivity. Qed.
End OneShape.

(** ** The closed forms *)

Lemma div_by_3 (a : val) : (a / Finite 3)%V = lift1 (fun x => x / 3) a.
Proof. destruct a as [x|]; [apply div_finite; lra|reflexivity]. Qed.

Lemma moment_volume (q radius : val) :
  (q * Finite 4 * pi * powi radius 3 / Finite 3)%V = (q * volume radius)%V.
Proof.
  unfold volume. rewrite div_by_3, (div_finite 4 3) by lra.
  destruct q as [a|], radius as [r|]; simpl; try reflexivity.
  f_equal. field.
Qed.

Lemma tf_point_contribution (fx fy fz : val) (s : Sphere.t) (mag : val)
    (p : point) (acc : val) :
  Sphere.props s !! "magnetization" = Some mag →
  tf_point fx fy fz (Some s) p acc = (acc + tf_contribution (fx, fy, fz) s mag p)%V.
Proof.
  intros Hm. unfold tf_point, tf_contribution, magnetization_direction, dipole_field, project.
  rewrite Hm. cbv zeta. rewrite moment_volume.
  destruct (match Sphere.props s !! "inclination" with
            | Some i => match Sphere.props s !! "declination" with
                        | Some d => _dircos i d | None => (fx, fy, fz) end
            | None => (fx, fy, fz) end) as [[mx my] mz].
  reflexivity.
Qed.

Lemma gz_point_contribution (s : Sphere.t) (density : val) (p : point) (acc : val) :
  Sphere.props s !! "density" = Some density →
  gz_point (Some s) p acc = (acc + gz_contribution s density p)%V.
Proof.
  intros Hm. unfold gz_point, gz_contribution.
  rewrite Hm. cbv zeta. rewrite moment_volume. reflexivity.
Qed.

Lemma tf_point_skip (fx fy fz : val) (o : option Sphere.t) (p : point) (acc : val) :
  (s ← o; v ← Sphere.props s !! "magnetization"; Some (s, v)) = None →
  tf_point fx fy fz o p acc = acc.
Proof.
  destruct o as [s|]; simpl; [|reflexivity].
  destruct (Sphere.props s !! "magnetization"); [discriminate|reflexivity].
Qed.

Lemma gz_point_skip (o : option Sphere.t) (p : point) (acc : val) :
  (s ← o; v ← Sphere.props s !! "density"; Some (s, v)) = None →
  gz_point o p acc = acc.
Proof.
  destruct o as [s|]; simpl; [|reflexivity].
  destruct (Sphere.props s !! "density"); [discriminate|reflexivity].
Qed.

Lemma contributing_cons (key : string) (o : option Sphere.t) (l : list (option Sphere.t)) :
  contributing key (o :: l)
  = match (s ← o; v ← Sphere.props s !! key; Some (s, v)) with
    | Some sv => sv :: contributing key l
    | None => contributing key l
    end.
Proof. reflexivity. Qed.

Lemma foldl_tf_point (fx fy fz : val) (p : point) (spheres : list (option Sphere.t)) (acc : val) :
  foldl (fun acc s => tf_point fx fy fz s p acc) acc spheres
  = foldl (fun acc sm => (acc + tf_contribution (fx, fy, fz) sm.1 sm.2 p)%V) acc
          (contributing "magnetization" spheres).
Proof.
  revert acc. induction spheres as [|o l IH]; intros acc; [reflexivity|].
  rewrite contributing_cons. cbn [foldl].
  destruct (s ← o; v ← Sphere.props s !! "magnetization"; Some (s, v)) as [[s v]|] eqn:E.
  - destruct o as [s'|]; [|discriminate]. simpl in E.
    destruct (Sphere.props s' !! "magnetization") as [v'|] eqn:Ev; [|discriminate].
    injection E as -> ->. cbn [foldl fst snd].
    rewrite (tf_point_contribution _ _ _ _ v) by exact Ev. apply IH.
  - rewrite tf_point_skip by exact E. apply IH.
Qed.

Lemma foldl_gz_point (p : point) (spheres : list (option Sphere.t)) (acc : val) :
  foldl (fun acc s => gz_point s p acc) acc spheres
  = foldl (fun acc sm => (acc + gz_contribution sm.1 sm.2 p)%V) acc
          (contributing "density" spheres).
Proof.
  revert acc. induction spheres as [|o l IH]; intros acc; [reflexivity|].
  rewrite contributing_cons. cbn [foldl].
  destruct (s ← o; v ← Sphere.props s !! "density"; Some (s, v)) as [[s v]|] eqn:E.
  - destruct o as [s'|]; [|discriminate]. simpl in E.
    destruct (Sphere.props s' !! "density") as [v'|] eqn:Ev; [|discriminate].
    injection E as -> ->. cbn [foldl fst snd].
    rewrite (gz_point_contribution _ v) by exact Ev. apply IH.
  - rewrite gz_point_skip by exact E. apply IH.
Qed.

(** C2: on observation arrays of one shape, [tf] returns an array of that
    shape whose element at every point is the product of [CM] and [T2NT]
    times the accumulator, to which every contributing source (not null,
    with a magnetization) has added [fx*bx + fy*by + fz*bz], the dipole field
    [(bx, by, bz)] being that of the moment [magnetization*(4/3)*pi*radius^3]
    in the frame centred on the source. *)
Theorem tf_formula (CM T2NT : R) (xp yp zp : ndarray)
    (spheres : list (option Sphere.t)) (inc dec : val) :
  shape xp = shape yp → shape yp = shape zp → wf xp → wf yp → wf zp →
  ∃ out : ndarray,
    outcome (tf CM T2NT xp yp zp spheres inc dec) = Ok out
    ∧ shape out = shape xp
    ∧ ∀ (i : nat) (px py pz : val),
        data xp !! i = Some px → data yp !! i = Some py → data zp !! i = Some pz →
        data out !! i
        = Some (Finite CM * Finite T2NT
                * foldl (fun acc sm =>
                           (acc + tf_contribution (_dircos inc dec) sm.1 sm.2 (px, py, pz))%V)
                        (Finite 0) (contributing "magnetization" spheres))%V.
Proof.
  intros Hxy Hyz Wx Wy Wz. eexists. split; [|split].
  - rewrite tf_one_shape by assumption. reflexivity.
  - reflexivity.
  - intros i px py pz Hx Hy Hz.
    rewrite (on_lookup _ _ _ _ _ _ (px, py, pz)) by (apply points_lookup; assumption).
    rewrite foldl_tf_point. destruct (_dircos inc dec) as [[fx fy] fz]. reflexivity.
Qed.

(** C3: on observation arrays of one shape, [gz] returns an array of that
    shape whose element at every point is the product of [G] and [SI2MGAL]
    times the accumulator, to which every contributing source (not null,
    with a density) has added [mass*z/r^3], with
    [mass = density*(4/3)*pi*radius^3] and [r^3 = (x^2 + y^2 + z^2)^1.5] in
    the frame centred on the source. *)
Theorem gz_formula (G SI2MGAL : R) (xp yp zp : ndarray)
    (spheres : list (option Sphere.t)) :
  shape xp = shape yp → shape yp = shape zp → wf xp → wf yp → wf zp →
  ∃ out : ndarray,
    outcome (gz G SI2MGAL xp yp zp spheres) = Ok out
    ∧ shape out = shape xp
    ∧ ∀ (i : nat) (px py pz : val),
        data xp !! i = Some px → data yp !! i = Some py → data zp !! i = Some pz →
        data out !! i
        = Some (Finite G * Finite SI2MGAL
                * foldl (fun acc sm => (acc + gz_contribution sm.1 sm.2 (px, py, pz))%V)
                        (Finite 0) (contributing "density" spheres))%V.
Proof.
  intros Hxy Hyz Wx Wy Wz. eexists. split; [|split].
  - rewrite gz_one_shape by assumption. reflexivity.
  - reflexivity.
  - intros i px py pz Hx Hy Hz.
    rewrite (on_lookup _ _ _ _ _ _ (px, py, pz)) by (apply points_lookup; assumption).
    rewrite foldl_gz_point. reflexivity.
Qed.

(** ** Skipped entries *)

Lemma for_each_filter {A S : Type} (body : S → A → M S) (keep : A → bool)
    (l : list A) (s : S) :
  (∀ s a, keep a = false → body s a = ret s) →
  for_each body l s = for_each body (List.filter keep l) s.
Proof.
  intros Hskip. revert s. induction l as [|a l IH]; intros s; simpl; [reflexivity|].
  destruct (keep a) eqn:E; simpl.
  - destruct (body s a) as [c [s'|e]]; simpl; [|reflexivity]. rewrite IH. reflexivity.
  - rewrite Hskip, bind_ret_l by exact E. apply IH.
Qed.

Lemma tf_body_skip (fx fy fz : val) (xp yp zp acc : ndarray) (o : option Sphere.t) :
  contributes "magnetization" o = false → tf_body fx fy fz xp yp zp acc o = ret acc.
Proof.
  destruct o as [s|]; simpl; [|reflexivity].
  destruct (Sphere.props s !! "magnetization"); [discriminate|reflexivity].
Qed.

Lemma gz_body_skip (xp yp zp acc : ndarray) (o : option Sphere.t) :
  contributes "density" o = false → gz_body xp yp zp acc o = ret acc.
Proof.
  destruct o as [s|]; simpl; [|reflexivity].
  destruct (Sphere.props s !! "density"); [discriminate|reflexivity].
Qed.

(** C7: for all observation arrays and every source list, [tf] (and [gz])
    gives the same result, error or call log on the list as on the list
    without its null entries and without the sources that lack
    ['magnetization'] (['density']): such entries raise nothing and change
    nothing. *)
Theorem skipped_entries (G SI2MGAL CM T2NT : R) (xp yp zp : ndarray)
    (spheres : list (option Sphere.t)) (inc dec : val) :
  tf CM T2NT xp yp zp spheres inc dec
  = tf CM T2NT xp yp zp (List.filter (contributes "magnetization") spheres) inc dec
  ∧ gz G SI2MGAL xp yp zp spheres
    = gz G SI2MGAL xp yp zp (List.filter (contributes "density") spheres).
Proof.
  split.
  - unfold tf. destruct (shape_check xp yp zp); [reflexivity|]. cbv zeta.
    unfold call_dircos. rewrite !bind_ok. destruct (_dircos inc dec) as [[fx fy] fz].
    cbv beta iota.
    rewrite (for_each_filter _ (contributes "magnetization")); [reflexivity|].
    intros acc o. apply tf_body_skip.
  - unfold gz. destruct (shape_check xp yp zp); [reflexivity|]. cbv zeta.
    rewrite (for_each_filter _ (contributes "density")); [reflexivity|].
    intros acc o. apply gz_body_skip.
Qed.

(** ** Superposition *)

Lemma add_0_l (a : val) : (Finite 0 + a)%V = a.
Proof. destruct a as [x|]; simpl; [f_equal; lra|reflexivity]. Qed.

Lemma add_0_r (a : val) : (a + Finite 0)%V = a.
Proof. destruct a as [x|]; simpl; [f_equal; lra|reflexivity]. Qed.

Lemma mul_add_distr (a b c : val) : (a * (b + c))%V = (a * b + a * c)%V.
Proof. destruct a, b, c; simpl; try reflexivity. f_equal. lra. Qed.

Lemma tf_point_acc (fx fy fz : val) (o : option Sphere.t) (p : point) (acc : val) :
  tf_point fx fy fz o p acc = (acc + tf_point fx fy fz o p (Finite 0))%V.
Proof.
  destruct (s ← o; v ← Sphere.props s !! "magnetization"; Some (s, v)) as [[s v]|] eqn:E.
  - destruct o as [s'|]; [|discriminate]. simpl in E.
    destruct (Sphere.props s' !! "magnetization") as [v'|] eqn:Ev; [|discriminate].
    rewrite !(tf_point_contribution _ _ _ _ v') by exact Ev. rewrite add_0_l. reflexivity.
  - rewrite !tf_point_skip by exact E. rewrite add_0_r. reflexivity.
Qed.

Lemma gz_point_acc (o : option Sphere.t) (p : point) (acc : val) :
  gz_point o p acc = (acc + gz_point o p (Finite 0))%V.
Proof.
  destruct (s ← o; v ← Sphere.props s !! "density"; Some (s, v)) as [[s v]|] eqn:E.
  - destruct o as [s'|]; [|discriminate]. simpl in E.
    destruct (Sphere.props s' !! "density") as [v'|] eqn:Ev; [|discriminate].
    rewrite !(gz_point_contribution _ v') by exact Ev. rewrite add_0_l. reflexivity.
  - rewrite !gz_point_skip by exact E. rewrite add_0_r. reflexivity.
Qed.

(** Scaling commutes with the accumulation of the sources. *)
Lemma foldl_scaled {A : Type} (step : A → point → val → val) (c : val) (p : point)
    (l : list A) (acc : val) :
  (∀ a acc, step a p acc = (acc + step a p (Finite 0))%V) →
  foldl (fun acc a => (acc + c * step a p (Finite 0))%V) (c * acc)%V l
  = (c * foldl (fun acc a => step a p acc) acc l)%V.
Proof.
  intros Hstep. revert acc. induction l as [|a l IH]; intros acc; simpl; [reflexivity|].
  rewrite <- mul_add_distr, <- Hstep. apply IH.
Qed.

Lemma arr_sum_on (sh : list nat) (pts : list point) {A : Type}
    (h : A → point → val) (l : list A) (g : point → val) :
  arr_sum (on sh pts g) ((fun a => on sh pts (h a)) <$> l)
  = on sh pts (fun p => foldl (fun acc a => (acc + h a p)%V) (g p) l).
Proof.
  unfold arr_sum. revert g. induction l as [|a l IH]; intros g; simpl; [reflexivity|].
  rewrite <- IH. f_equal. unfold on. simpl. rewrite zip_with_fmap_same. reflexivity.
Qed.

Lemma on_ext (sh : list nat) (pts : list point) (g h : point → val) :
  (∀ p, g p = h p) → on sh pts g = on sh pts h.
Proof. intros E. unfold on. f_equal. apply list_fmap_ext. intros _ p _. apply E. Qed.

(** C8: superposition.  On observation arrays of one shape, the output of
    [tf] (and of [gz]) on a list of sources is the elementwise sum of the
    outputs on each source alone, over real arithmetic. *)
Theorem superposition (G SI2MGAL CM T2NT : R) (xp yp zp : ndarray)
    (spheres : list (option Sphere.t)) (inc dec : val) :
  shape xp = shape yp → shape yp = shape zp → wf xp → wf yp → wf zp →
  (∃ (out : ndarray) (outs : list ndarray),
      outcome (tf CM T2NT xp yp zp spheres inc dec) = Ok out
      ∧ Forall2 (fun s o => outcome (tf CM T2NT xp yp zp [s] inc dec) = Ok o) spheres outs
      ∧ out = arr_sum (zeros_like xp) outs)
  ∧ (∃ (out : ndarray) (outs : list ndarray),
      outcome (gz G SI2MGAL xp yp zp spheres) = Ok out
      ∧ Forall2 (fun s o => outcome (gz G SI2MGAL xp yp zp [s]) = Ok o) spheres outs
      ∧ out = arr_sum (zeros_like xp) outs).
Proof.
  intros Hxy Hyz Wx Wy Wz.
  destruct (on_points xp yp zp Hxy Hyz Wx Wy Wz) as (Hlen & Hx & _ & _).
  assert (Hz : zeros_like xp = on (shape xp) (points xp yp zp) (fun _ => Finite 0)).
  { rewrite Hx at 1. apply zeros_like_on. exact Hlen. }
  split.
  - destruct (_dircos inc dec) as [[fx fy] fz] eqn:Ef.
    set (c := (Finite CM * Finite T2NT)%V).
    exists (on (shape xp) (points xp yp zp) (fun p =>
              (c * foldl (fun acc s => tf_point fx fy fz s p acc) (Finite 0) spheres)%V)).
    exists ((fun s => on (shape xp) (points xp yp zp) (fun p =>
              (c * tf_point fx fy fz s p (Finite 0))%V)) <$> spheres).
    split; [|split].
    + rewrite tf_one_shape by assumption. rewrite Ef. reflexivity.
    + apply Forall2_fmap_r, Forall_Forall2_diag, Forall_forall. intros s _. simpl.
      rewrite tf_one_shape by assumption. rewrite Ef. reflexivity.
    + rewrite Hz, arr_sum_on. apply on_ext. intros p.
      rewrite <- (foldl_scaled (tf_point fx fy fz)) by (intros; apply tf_point_acc).
      replace (c * Finite 0)%V with (Finite 0); [reflexivity|].
      unfold c. simpl. f_equal. ring.
  - set (c := (Finite G * Finite SI2MGAL)%V).
    exists (on (shape xp) (points xp yp zp) (fun p =>
              (c * foldl (fun acc s => gz_point s p acc) (Finite 0) spheres)%V)).
    exists ((fun s => on (shape xp) (points xp yp zp) (fun p =>
              (c * gz_point s p (Finite 0))%V)) <$> spheres).
    split; [|split].
    + rewrite gz_one_shape by assumption. reflexivity.
    + apply Forall2_fmap_r, Forall_Forall2_diag, Forall_forall. intros s _. simpl.
      rewrite gz_one_shape by assumption. reflexivity.
    + rewrite Hz, arr_sum_on. apply on_ext. intros p.
      rewrite <- (foldl_scaled gz_point) by (intros; apply gz_point_acc).
      replace (c * Finite 0)%V with (Finite 0); [reflexivity|].
      unfold c. simpl. f_equal. ring.
Qed.

(** ** Calls and errors of the loop *)

Lemma array_step_ret {A : Type} (a : A) : array_step (ret a).
Proof. split; [reflexivity|]. intros e H. discriminate H. Qed.

Lemma array_step_arr_op (f : val → val → val) (a b : ndarray) : array_step (arr_op f a b).
Proof.
  unfold arr_op. destruct (broadcast_shapes (shape a) (shape b)).
  - apply array_step_ret.
  - split; [reflexivity|]. intros e H. injection H as <-. reflexivity.
Qed.

Lemma array_step_bind {A B : Type} (m : M A) (k : A → M B) :
  array_step m → (∀ a, array_step (k a)) → array_step (bind m k).
Proof.
  intros [Hc He] Hk. destruct m as [l [a|e]]; simpl in *; subst l.
  - destruct (Hk a) as [Hc' He']. destruct (k a) as [l' r]. simpl in *. subst l'.
    split; [reflexivity|exact He'].
  - split; [reflexivity|]. intros e' H. injection H as <-. apply He. reflexivity.
Qed.

Ltac array_steps :=
  repeat first
    [ apply array_step_ret
    | apply array_step_arr_op
    | apply array_step_bind; [|intros ?] ].

Lemma effects_after_call {A : Type} (c : call) (m : M A) :
  array_step m →
  calls ([c] ++ calls m, outcome m) = [c]
  ∧ ∀ e, outcome ([c] ++ calls m, outcome m) = Raise e → e = ValueError broadcast_msg.
Proof. intros [Hc He]. rewrite Hc. split; [reflexivity|exact He]. Qed.

Lemma tf_body_effects (fx fy fz : val) (xp yp zp acc : ndarray) (o : option Sphere.t) :
  calls (tf_body fx fy fz xp yp zp acc o) = override_calls o
  ∧ ∀ e, outcome (tf_body fx fy fz xp yp zp acc o) = Raise e → e = ValueError broadcast_msg.
Proof.
  destruct o as [s|]; [|apply array_step_ret].
  unfold tf_body, override_calls.
  destruct (Sphere.props s !! "magnetization") as [mag|]; [|apply array_step_ret].
  destruct (Sphere.props s !! "inclination") as [i|],
           (Sphere.props s !! "declination") as [d|].
  1: unfold call_dircos; rewrite bind_ok; destruct (_dircos i d) as [[mx my] mz].
  2-4: rewrite bind_ret_l.
  all: cbv beta iota zeta.
  1: apply effects_after_call.
  2-4: match goal with |- calls ?m = [] ∧ _ => change (array_step m) end.
  all: array_steps.
Qed.

Lemma gz_body_effects (xp yp zp acc : ndarray) (o : option Sphere.t) :
  array_step (gz_body xp yp zp acc o).
Proof.
  destruct o as [s|]; [|apply array_step_ret]. unfold gz_body.
  destruct (Sphere.props s !! "density") as [density|]; [|apply array_step_ret].
  cbv zeta. array_steps.
Qed.

Lemma tf_loop_effects (fx fy fz : val) (xp yp zp : ndarray)
    (spheres : list (option Sphere.t)) (acc : ndarray) :
  (∃ k, calls (for_each (tf_body fx fy fz xp yp zp) spheres acc)
        = flat_map override_calls (take k spheres))
  ∧ ∀ e, outcome (for_each (tf_body fx fy fz xp yp zp) spheres acc) = Raise e →
         e = ValueError broadcast_msg.
Proof.
  revert acc. induction spheres as [|o l IH]; intros acc; simpl.
  - split; [exists O; reflexivity|]. intros e H. discriminate H.
  - destruct (tf_body_effects fx fy fz xp yp zp acc o) as [Hc He].
    destruct (tf_body fx fy fz xp yp zp acc o) as [c [acc'|e]]; simpl in *; subst c.
    + destruct (IH acc') as [[k Hk] He'].
      destruct (for_each (tf_body fx fy fz xp yp zp) l acc') as [c r]. simpl in *. subst c.
      split; [exists (S k); reflexivity|exact He'].
    + split; [exists 1%nat; simpl; rewrite ?take_0; simpl; rewrite app_nil_r; reflexivity|exact He].
Qed.

Lemma gz_loop_effects (xp yp zp : ndarray) (spheres : list (option Sphere.t))
    (acc : ndarray) :
  array_step (for_each (gz_body xp yp zp) spheres acc).
Proof.
  revert acc. induction spheres as [|o l IH]; intros acc; simpl.
  - apply array_step_ret.
  - apply array_step_bind; [apply gz_body_effects|exact IH].
Qed.

(** Once the shapes have passed the check, [tf] resolves the ambient
    direction first, then only the directions of sources that carry their
    own, and can only fail in a broadcast. *)
Lemma tf_effects (CM T2NT : R) (xp yp zp : ndarray)
    (spheres : list (option Sphere.t)) (inc dec : val) :
  shape_check xp yp zp = false →
  (∃ k, calls (tf CM T2NT xp yp zp spheres inc dec)
        = (inc, dec) :: flat_map override_calls (take k spheres))
  ∧ ∀ e, outcome (tf CM T2NT xp yp zp spheres inc dec) = Raise e →
         e = ValueError broadcast_msg.
Proof.
  intros Hc. unfold tf. rewrite Hc. cbv zeta. unfold call_dircos. rewrite bind_ok.
  destruct (_dircos inc dec) as [[fx fy] fz]. cbv beta iota.
  destruct (tf_loop_effects fx fy fz xp yp zp spheres (zeros_like xp)) as [[k Hk] He].
  destruct (for_each (tf_body fx fy fz xp yp zp) spheres (zeros_like xp)) as [c [a|e]];
    simpl in *; subst c.
  - split; [exists k; rewrite app_nil_r; reflexivity|]. intros e H. discriminate H.
  - split; [exists k; reflexivity|exact He].
Qed.

Lemma gz_effects (G SI2MGAL : R) (xp yp zp : ndarray) (spheres : list (option Sphere.t)) :
  shape_check xp yp zp = false → array_step (gz G SI2MGAL xp yp zp spheres).
Proof.
  intros Hc. unfold gz. rewrite Hc. cbv zeta.
  apply array_step_bind; [apply gz_loop_effects|]. intros a. apply array_step_ret.
Qed.

(** ** The shape check *)

Lemma shape_check_false (xp yp zp : ndarray) :
  shape xp = shape yp ∨ shape yp = shape zp → shape_check xp yp zp = false.
Proof.
  unfold shape_check. intros [E|E].
  - rewrite (bool_decide_false (shape xp ≠ shape yp)); [reflexivity|]. intros N. exact (N E).
  - rewrite (bool_decide_false (shape yp ≠ shape zp)); [|intros N; exact (N E)].
    apply andb_false_r.
Qed.

Lemma shape_check_true (xp yp zp : ndarray) :
  shape xp ≠ shape yp → shape yp ≠ shape zp → shape_check xp yp zp = true.
Proof.
  intros N1 N2. unfold shape_check. rewrite !bool_decide_true by assumption. reflexivity.
Qed.

(** When the first two shapes differ and the last two differ, both
    evaluators raise at once: nothing is computed and [_dircos] is not
    called. *)
Lemma shape_error_raised (G SI2MGAL CM T2NT : R) (xp yp zp : ndarray)
    (spheres : list (option Sphere.t)) (inc dec : val) :
  shape xp ≠ shape yp → shape yp ≠ shape zp →
  tf CM T2NT xp yp zp spheres inc dec = raise (ValueError shape_msg)
  ∧ gz G SI2MGAL xp yp zp spheres = raise (ValueError shape_msg).
Proof.
  intros N1 N2. unfold tf, gz. rewrite shape_check_true by assumption. split; reflexivity.
Qed.

(** C10: the validation is the chained comparison
    [xp.shape != yp.shape != zp.shape], so when [xp.shape] equals
    [yp.shape], whatever the shape of [zp] (and likewise when [yp.shape]
    equals [zp.shape]), neither [tf] nor [gz] raises the shape error: the
    call is the evaluation that follows the check, run on the arrays as they
    are. *)
Theorem chained_shape_check (G SI2MGAL CM T2NT : R) (xp yp zp : ndarray)
    (spheres : list (option Sphere.t)) (inc dec : val) :
  shape xp = shape yp ∨ shape yp = shape zp →
  shape_check xp yp zp = false
  ∧ outcome (tf CM T2NT xp yp zp spheres inc dec) ≠ Raise (ValueError shape_msg)
  ∧ outcome (gz G SI2MGAL xp yp zp spheres) ≠ Raise (ValueError shape_msg)
  ∧ tf CM T2NT xp yp zp spheres inc dec
    = (let* (fx, fy, fz) := call_dircos inc dec in
       let* acc := for_each (tf_body fx fy fz xp yp zp) spheres (zeros_like xp) in
       ret (arr_map (fun v => (Finite CM * Finite T2NT * v)%V) acc))
  ∧ gz G SI2MGAL xp yp zp spheres
    = (let* acc := for_each (gz_body xp yp zp) spheres (zeros_like xp) in
       ret (arr_map (fun v => (Finite G * Finite SI2MGAL * v)%V) acc)).
Proof.
  intros H. pose proof (shape_check_false xp yp zp H) as Hc.
  split; [exact Hc|]. split; [|split; [|split]].
  - intros E. apply (proj2 (tf_effects CM T2NT xp yp zp spheres inc dec Hc)) in E.
    discriminate E.
  - intros E. apply (proj2 (gz_effects G SI2MGAL xp yp zp spheres Hc)) in E.
    discriminate E.
  - unfold tf. rewrite Hc. reflexivity.
  - unfold gz. rewrite Hc. reflexivity.
Qed.

(** With [xp] and [yp] of shape (2,) and [zp] of shape (3,) the check lets
    the call through and the error comes from the arithmetic. *)
Example late_broadcast_error (G SI2MGAL CM T2NT : R) (inc dec : val) :
  outcome (tf CM T2NT (arange 2) (arange 2) (arange 3) [Some ball] inc dec)
  = Raise (ValueError broadcast_msg)
  ∧ outcome (gz G SI2MGAL (arange 2) (arange 2) (arange 3) [Some ball])
    = Raise (ValueError broadcast_msg).
Proof. split; reflexivity. Qed.

(** With [zp] of shape (1,) it is broadcast against the two others. *)
Example silent_broadcast (G SI2MGAL : R) :
  ∃ out, outcome (gz G SI2MGAL (arange 2) (arange 2) (arange 1) [Some ball]) = Ok out
         ∧ shape out = [2%nat] ∧ length (data out) = 2%nat.
Proof. eexists. split; [reflexivity|]. split; reflexivity. Qed.

(** C1, where the code departs from it: with [xp] of shape (3,) and [yp]
    and [zp] of shape (4,) the three arrays do not share one shape, yet
    neither evaluator raises; on an empty source list each returns an array
    of the shape of [xp]. *)
Theorem shape_mismatch_not_detected (G SI2MGAL CM T2NT : R) (inc dec : val) :
  shape (arange 3) ≠ shape (arange 4)
  ∧ (∃ out, tf CM T2NT (arange 3) (arange 4) (arange 4) [] inc dec
            = ([(inc, dec)], Ok out) ∧ shape out = [3%nat])
  ∧ (∃ out, gz G SI2MGAL (arange 3) (arange 4) (arange 4) [] = ret out
            ∧ shape out = [3%nat]).
Proof.
  split; [discriminate|]. split; eexists; (split; [reflexivity|]); reflexivity.
Qed.

(** ** The direction of the magnetization *)


(** ** Observation points on the centre of a source *)

Lemma is_finite_inv (v : val) : is_finite v → ∃ r, v = Finite r.
Proof. destruct v as [r|]; [exists r; reflexivity|contradiction]. Qed.















(** ** The theorems at concrete calls *)

Lemma tf_formula_witness :
  ∃ out, outcome (tf (1 / 10 ^ 7) (10 ^ 9) (at_coord 0) (at_coord 0) (at_coord (-2000))
                     [Some ball; None] (Finite 0) (Finite 0)) = Ok out
         ∧ shape out = [1%nat].
Proof.
  destruct (tf_formula (1 / 10 ^ 7) (10 ^ 9) (at_coord 0) (at_coord 0) (at_coord (-2000))
              [Some ball; None] (Finite 0) (Finite 0))
    as (out & H & Hs & _); [reflexivity..|].
  exists out. split; assumption.
Defined.

Lemma gz_formula_witness :
  ∃ out, outcome (gz (6673 / 10 ^ 14) (10 ^ 5) (at_coord 0) (at_coord 0) (at_coord (-5000))
                     [Some ball; None]) = Ok out
         ∧ shape out = [1%nat].
Proof.
  destruct (gz_formula (6673 / 10 ^ 14) (10 ^ 5) (at_coord 0) (at_coord 0)
              (at_coord (-5000)) [Some ball; None])
    as (out & H & Hs & _); [reflexivity..|].
  exists out. split; assumption.
Defined.


Lemma superposition_witness :
  ∃ out outs,
    outcome (gz (6673 / 10 ^ 14) (10 ^ 5) (arange 2) (arange 2) (arange 2)
                [Some ball; None; Some magnet]) = Ok out
    ∧ length outs = 3%nat
    ∧ out = arr_sum (zeros_like (arange 2)) outs.
Proof.
  destruct (superposition (6673 / 10 ^ 14) (10 ^ 5) (1 / 10 ^ 7) (10 ^ 9)
              (arange 2) (arange 2) (arange 2) [Some ball; None; Some magnet]
              (Finite 0) (Finite 0))
    as [_ (out & outs & H & Hall & Hsum)]; [reflexivity..|].
  exists out, outs. split; [exact H|]. split; [|exact Hsum].
  symmetry. exact (Forall2_length _ _ _ Hall).
Defined.


Lemma chained_shape_check_witness :
  outcome (gz (6673 / 10 ^ 14) (10 ^ 5) (arange 2) (arange 2) (arange 3) [Some ball])
  ≠ Raise (ValueError shape_msg).
Proof.
  apply (chained_shape_check (6673 / 10 ^ 14) (10 ^ 5) (1 / 10 ^ 7) (10 ^ 9)
           (arange 2) (arange 2) (arange 3) [Some ball] (Finite 0) (Finite 0)).
  left. reflexivity.
Defined.

(** * Part III: further properties of the evaluators *)

(** ** Order of the sources *)

Lemma add_swap (a b c : val) : (a + b + c)%V = (a + c + b)%V.
Proof. destruct a, b, c; simpl; try reflexivity. f_equal. lra. Qed.

Lemma foldl_point_permutation {A : Type} (step : A → val → val) (l k : list A) :
  (∀ a acc, step a acc = (acc + step a (Finite 0))%V) →
  l ≡ₚ k → ∀ acc, foldl (fun acc a => step a acc) acc l = foldl (fun acc a => step a acc) acc k.
Proof.
  intros Hstep Hp. induction Hp as [|a l k _ IH|a b l|l k m _ IH1 _ IH2]; intros acc; simpl.
  - reflexivity.
  - apply IH.
  - f_equal. rewrite (Hstep a), (Hstep b (step a acc)), (Hstep a acc), (Hstep b acc).
    apply add_swap.
  - rewrite IH1. apply IH2.
Qed.

(** X1: on observation arrays of one shape, the results of [tf] and [gz]
    do not depend on the order of the sources, over real arithmetic. *)
Theorem order_independent (G SI2MGAL CM T2NT : R) (xp yp zp : ndarray)
    (spheres spheres' : list (option Sphere.t)) (inc dec : val) :
  shape xp = shape yp → shape yp = shape zp → wf xp → wf yp → wf zp →
  spheres ≡ₚ spheres' →
  outcome (tf CM T2NT xp yp zp spheres inc dec)
  = outcome (tf CM T2NT xp yp zp spheres' inc dec)
  ∧ outcome (gz G SI2MGAL xp yp zp spheres) = outcome (gz G SI2MGAL xp yp zp spheres').
Proof.
  intros Hxy Hyz Wx Wy Wz Hp. split.
  - rewrite !tf_one_shape by assumption. unfold outcome. cbn [snd]. f_equal.
    apply on_ext. intros p. f_equal.
    apply foldl_point_permutation; [|exact Hp]. intros a acc. apply tf_point_acc.
  - rewrite !gz_one_shape by assumption. unfold outcome, ret. cbn [snd]. f_equal.
    apply on_ext. intros p. f_equal.
    apply (foldl_point_permutation (fun s acc => gz_point s p acc)); [|exact Hp].
    intros a acc. apply gz_point_acc.
Qed.

Lemma order_independent_witness :
  outcome (gz (6673 / 10 ^ 14) (10 ^ 5) (arange 2) (arange 2) (arange 2) [Some ball; Some magnet])
  = outcome (gz (6673 / 10 ^ 14) (10 ^ 5) (arange 2) (arange 2) (arange 2) [Some magnet; Some ball]).
Proof.
  apply (order_independent (6673 / 10 ^ 14) (10 ^ 5) (1 / 10 ^ 7) (10 ^ 9)
           (arange 2) (arange 2) (arange 2) [Some ball; Some magnet] [Some magnet; Some ball]
           (Finite 0) (Finite 0)); [reflexivity..|].
  apply perm_swap.
Defined.

(** ** Calls without a contributing source *)

Lemma scaled_zeros (c : val) (a : ndarray) :
  is_finite c → arr_map (fun v => (c * v)%V) (zeros_like a) = zeros_like a.
Proof.
  intros [r ->]%is_finite_inv. unfold arr_map, zeros_like. simpl. f_equal.
  induction (size_of (shape a)) as [|n IH]; simpl; [reflexivity|].
  f_equal; [f_equal; lra|exact IH].
Qed.

(** X2: when the shapes pass the check and no entry of the source list
    contributes (the list is empty, or holds only null entries and sources
    without the property), the result is the array of zeros of the shape of
    [xp], whatever [yp] and [zp] hold. *)
Theorem no_contributing_source (G SI2MGAL CM T2NT : R) (xp yp zp : ndarray)
    (spheres : list (option Sphere.t)) (inc dec : val) :
  shape xp = shape yp ∨ shape yp = shape zp →
  (List.filter (contributes "magnetization") spheres = [] →
   tf CM T2NT xp yp zp spheres inc dec = ([(inc, dec)], Ok (zeros_like xp)))
  ∧ (List.filter (contributes "density") spheres = [] →
     gz G SI2MGAL xp yp zp spheres = ret (zeros_like xp)).
Proof.
  intros Hs. pose proof (shape_check_false xp yp zp Hs) as Hc. split; intros Hnone.
  - unfold tf. rewrite Hc. cbv zeta. unfold call_dircos. rewrite bind_ok.
    destruct (_dircos inc dec) as [[fx fy] fz]. cbv beta iota.
    rewrite (for_each_filter _ (contributes "magnetization"))
      by (intros acc o; apply tf_body_skip).
    rewrite Hnone. cbn [for_each]. rewrite bind_ret_l, scaled_zeros by exact I.
    reflexivity.
  - unfold gz. rewrite Hc. cbv zeta.
    rewrite (for_each_filter _ (contributes "density"))
      by (intros acc o; apply gz_body_skip).
    rewrite Hnone. cbn [for_each]. rewrite bind_ret_l, scaled_zeros by exact I.
    reflexivity.
Qed.

Lemma no_contributing_source_witness :
  gz (6673 / 10 ^ 14) (10 ^ 5) (arange 3) (arange 4) (arange 4) [None; Some magnet]
  = ret (zeros_like (arange 3)).
Proof.
  apply (no_contributing_source (6673 / 10 ^ 14) (10 ^ 5) (1 / 10 ^ 7) (10 ^ 9)
           (arange 3) (arange 4) (arange 4) [None; Some magnet] (Finite 0) (Finite 0)).
  - right. reflexivity.
  - reflexivity.
Defined.

(** ** When the shape error is raised *)

(** X3: [tf] and [gz] raise the [ValueError] of the shape check exactly
    when the shape of [xp] differs from that of [yp] and the shape of [yp]
    differs from that of [zp]. *)
Theorem shape_error_iff (G SI2MGAL CM T2NT : R) (xp yp zp : ndarray)
    (spheres : list (option Sphere.t)) (inc dec : val) :
  (outcome (tf CM T2NT xp yp zp spheres inc dec) = Raise (ValueError shape_msg)
   ↔ shape xp ≠ shape yp ∧ shape yp ≠ shape zp)
  ∧ (outcome (gz G SI2MGAL xp yp zp spheres) = Raise (ValueError shape_msg)
     ↔ shape xp ≠ shape yp ∧ shape yp ≠ shape zp).
Proof.
  assert (Hcases : (shape xp = shape yp ∨ shape yp = shape zp)
                   ∨ (shape xp ≠ shape yp ∧ shape yp ≠ shape zp)).
  { destruct (decide (shape xp = shape yp)); [auto|].
    destruct (decide (shape yp = shape zp)); auto. }
  destruct Hcases as [Hs|[N1 N2]].
  - pose proof (shape_check_false xp yp zp Hs) as Hc. split; split.
    + intros E. apply (proj2 (tf_effects CM T2NT xp yp zp spheres inc dec Hc)) in E.
      discriminate E.
    + intros [N1 N2]. destruct Hs; contradiction.
    + intros E. apply (proj2 (gz_effects G SI2MGAL xp yp zp spheres Hc)) in E.
      discriminate E.
    + intros [N1 N2]. destruct Hs; contradiction.
  - destruct (shape_error_raised G SI2MGAL CM T2NT xp yp zp spheres inc dec N1 N2)
      as [-> ->].
    split; split; auto.
Qed.

(** ** Errors of the arithmetic *)

Lemma arr_op_shape (f : val → val → val) (a b : ndarray) :
  shape a = shape b →
  ∃ d, arr_op f a b = ret {| shape := shape a; data := d |}.
Proof.
  intros Hs. unfold arr_op. rewrite <- Hs, broadcast_shapes_same. eauto.
Qed.

Lemma arr_op_incompatible (f : val → val → val) (a b : ndarray) :
  broadcast_shapes (shape a) (shape b) = None →
  arr_op f a b = raise (ValueError broadcast_msg).
Proof. intros Hb. unfold arr_op. rewrite Hb. reflexivity. Qed.

Lemma tf_body_incompatible (fx fy fz : val) (xp yp zp acc : ndarray) (o : option Sphere.t) :
  shape xp = shape yp → broadcast_shapes (shape xp) (shape zp) = None →
  contributes "magnetization" o = true →
  outcome (tf_body fx fy fz xp yp zp acc o) = Raise (ValueError broadcast_msg).
Proof.
  intros Hxy Hb Hc. destruct o as [s|]; [|discriminate]. unfold tf_body. simpl in Hc.
  destruct (Sphere.props s !! "magnetization") as [mag|]; [|discriminate].
  destruct (Sphere.props s !! "inclination") as [i|],
           (Sphere.props s !! "declination") as [d|].
  1: unfold call_dircos; rewrite bind_ok; destruct (_dircos i d) as [[mx my] mz].
  2-4: rewrite bind_ret_l.
  all: cbv beta iota zeta.
  all: match goal with
       | |- context [bind (arr_op ?f ?a ?b) _] =>
           destruct (arr_op_shape f a b Hxy) as [dt ->]
       end.
  all: rewrite bind_ret_l; rewrite arr_op_incompatible by exact Hb; reflexivity.
Qed.

Lemma gz_body_incompatible (xp yp zp acc : ndarray) (o : option Sphere.t) :
  shape xp = shape yp → broadcast_shapes (shape xp) (shape zp) = None →
  contributes "density" o = true →
  outcome (gz_body xp yp zp acc o) = Raise (ValueError broadcast_msg).
Proof.
  intros Hxy Hb Hc. destruct o as [s|]; [|discriminate]. unfold gz_body. simpl in Hc.
  destruct (Sphere.props s !! "density") as [density|]; [|discriminate].
  cbv zeta.
  match goal with
  | |- context [bind (arr_op ?f ?a ?b) _] => destruct (arr_op_shape f a b Hxy) as [dt ->]
  end.
  rewrite bind_ret_l. rewrite arr_op_incompatible by exact Hb. reflexivity.
Qed.

Lemma for_each_first_raises {A S : Type} (body : S → A → M S) (keep : A → bool)
    (l : list A) (s : S) (e : exn) :
  (∀ s a, keep a = false → body s a = ret s) →
  (∀ s a, keep a = true → outcome (body s a) = Raise e) →
  Exists (fun a => keep a = true) l →
  outcome (for_each body l s) = Raise e.
Proof.
  intros Hskip Hraise Hex. rewrite (for_each_filter body keep) by exact Hskip.
  assert (Hne : List.filter keep l ≠ []).
  { induction Hex as [a l Ha|a l _ IH]; simpl.
    - rewrite Ha. discriminate.
    - destruct (keep a); [discriminate|exact IH]. }
  destruct (List.filter keep l) as [|a k] eqn:E; [contradiction|]. simpl.
  assert (Ha : keep a = true).
  { assert (Hin : In a (List.filter keep l)) by (rewrite E; left; reflexivity).
    apply filter_In in Hin. apply Hin. }
  specialize (Hraise s a Ha). destruct (body s a) as [c [s'|e']]; simpl in *.
  - discriminate.
  - exact Hraise.
Qed.

(** X4: when [xp] and [yp] have one shape, with which that of [zp] cannot
    be broadcast, and at least one source contributes, [tf] and [gz] raise
    numpy's broadcast error, from the arithmetic of the first contributing
    source. *)
Theorem incompatible_zp (G SI2MGAL CM T2NT : R) (xp yp zp : ndarray)
    (spheres : list (option Sphere.t)) (inc dec : val) :
  shape xp = shape yp → broadcast_shapes (shape xp) (shape zp) = None →
  (Exists (fun o => contributes "magnetization" o = true) spheres →
   outcome (tf CM T2NT xp yp zp spheres inc dec) = Raise (ValueError broadcast_msg))
  ∧ (Exists (fun o => contributes "density" o = true) spheres →
     outcome (gz G SI2MGAL xp yp zp spheres) = Raise (ValueError broadcast_msg)).
Proof.
  intros Hxy Hb. pose proof (shape_check_false xp yp zp (or_introl Hxy)) as Hc.
  split; intros Hex.
  - unfold tf. rewrite Hc. cbv zeta. unfold call_dircos. rewrite bind_ok.
    destruct (_dircos inc dec) as [[fx fy] fz]. cbv beta iota.
    pose proof (for_each_first_raises (tf_body fx fy fz xp yp zp)
                  (contributes "magnetization") spheres (zeros_like xp)
                  (ValueError broadcast_msg)) as H.
    destruct (for_each (tf_body fx fy fz xp yp zp) spheres (zeros_like xp)) as [c r].
    simpl in *. rewrite H; [reflexivity| | |exact Hex].
    + intros acc o. apply tf_body_skip.
    + intros acc o. apply tf_body_incompatible; assumption.
  - unfold gz. rewrite Hc. cbv zeta.
    pose proof (for_each_first_raises (gz_body xp yp zp)
                  (contributes "density") spheres (zeros_like xp)
                  (ValueError broadcast_msg)) as H.
    destruct (for_each (gz_body xp yp zp) spheres (zeros_like xp)) as [c r].
    simpl in *. rewrite H; [reflexivity| | |exact Hex].
    + intros acc o. apply gz_body_skip.
    + intros acc o. apply gz_body_incompatible; assumption.
Qed.

Lemma incompatible_zp_witness :
  outcome (gz (6673 / 10 ^ 14) (10 ^ 5) (arange 2) (arange 2) (arange 3) [None; Some ball])
  = Raise (ValueError broadcast_msg).
Proof.
  apply (incompatible_zp (6673 / 10 ^ 14) (10 ^ 5) (1 / 10 ^ 7) (10 ^ 9)
           (arange 2) (arange 2) (arange 3) [None; Some ball] (Finite 0) (Finite 0));
    [reflexivity|reflexivity|].
  apply Exists_cons_tl, Exists_cons_hd. reflexivity.
Defined.

(** ** The angles of [_dircos] *)

(** X5: [_dircos] is unchanged by a full turn of either angle; the
    opposite inclination gives the opposite vertical component; an
    inclination of 90 degrees points straight down whatever the
    declination. *)
Theorem dircos_angles (inc dec : R) :
  _dircos (Finite (inc + 360)) (Finite dec) = _dircos (Finite inc) (Finite dec)
  ∧ _dircos (Finite inc) (Finite (dec + 360)) = _dircos (Finite inc) (Finite dec)
  ∧ _dircos (Finite (- inc)) (Finite dec)
    = (let '(a, b, c) := _dircos (Finite inc) (Finite dec) in (a, b, Finite (-1) * c)%V)
  ∧ _dircos (Finite 90) (Finite dec) = (Finite 0, Finite 0, Finite 1).
Proof.
  rewrite !dircos_finite_angles.
  replace ((inc + 360) * PI / 180) with (inc * PI / 180 + 2 * INR 1 * PI) by (simpl; lra).
  replace ((dec + 360) * PI / 180) with (dec * PI / 180 + 2 * INR 1 * PI) by (simpl; lra).
  rewrite !cos_period, !sin_period.
  replace (- inc * PI / 180) with (- (inc * PI / 180)) by lra.
  rewrite cos_neg, sin_neg.
  replace (90 * PI / 180) with (PI / 2) by lra.
  rewrite cos_PI2, sin_PI2.
  repeat split; simpl; repeat f_equal; lra.
Qed.

(** ** Moving points and sources together *)

Lemma sub_shift (a b : val) (t : R) : (a + Finite t - (b + Finite t))%V = (a - b)%V.
Proof. destruct a, b; simpl; try reflexivity. f_equal. lra. Qed.

Lemma tf_point_shift (fx fy fz : val) (tx ty tz : R) (o : option Sphere.t)
    (p : point) (acc : val) :
  tf_point fx fy fz (shift_source (Finite tx) (Finite ty) (Finite tz) o)
    ((p.1.1 + Finite tx)%V, (p.1.2 + Finite ty)%V, (p.2 + Finite tz)%V) acc
  = tf_point fx fy fz o p acc.
Proof.
  destruct o as [s|]; [|reflexivity]. unfold tf_point, shift_source. cbn [fmap option_fmap option_map].
  unfold shift_sphere. cbn [Sphere.props Sphere.radius Sphere.x Sphere.y Sphere.z fst snd].
  rewrite !sub_shift. reflexivity.
Qed.

Lemma gz_point_shift (tx ty tz : R) (o : option Sphere.t) (p : point) (acc : val) :
  gz_point (shift_source (Finite tx) (Finite ty) (Finite tz) o)
    ((p.1.1 + Finite tx)%V, (p.1.2 + Finite ty)%V, (p.2 + Finite tz)%V) acc
  = gz_point o p acc.
Proof.
  destruct o as [s|]; [|reflexivity]. unfold gz_point, shift_source. cbn [fmap option_fmap option_map].
  unfold shift_sphere. cbn [Sphere.props Sphere.radius Sphere.x Sphere.y Sphere.z fst snd].
  rewrite !sub_shift. reflexivity.
Qed.

Lemma override_calls_shift (tx ty tz : val) (l : list (option Sphere.t)) :
  flat_map override_calls (shift_source tx ty tz <$> l) = flat_map override_calls l.
Proof.
  induction l as [|o l IH]; [reflexivity|]. rewrite fmap_cons. cbn [flat_map].
  rewrite IH. destruct o; reflexivity.
Qed.

Lemma points_shift (tx ty tz : val) (xp yp zp : ndarray) :
  points (arr_map (fun v => (v + tx)%V) xp) (arr_map (fun v => (v + ty)%V) yp)
         (arr_map (fun v => (v + tz)%V) zp)
  = (fun p : point => ((p.1.1 + tx)%V, (p.1.2 + ty)%V, (p.2 + tz)%V)) <$> points xp yp zp.
Proof.
  unfold points, arr_map. simpl. generalize (data xp) (data yp) (data zp).
  induction l as [|a l IH]; intros [|b k] [|c m]; simpl; try reflexivity.
  f_equal. apply IH.
Qed.

Lemma foldl_fmap_ext {A B : Type} (f g : B → A → B) (h : A → A) (l : list A) (b : B) :
  (∀ a b, f b (h a) = g b a) → foldl f b (h <$> l) = foldl g b l.
Proof.
  intros E. revert b. induction l as [|a l IH]; intros b; [reflexivity|].
  cbn [fmap list_fmap foldl]. rewrite E. apply IH.
Qed.

(** X6: over exact real arithmetic, moving the observation points and the
    centres of the sources by one and the same vector changes nothing in
    what [tf] and [gz] return, raise and log.  In floating point the moved
    coordinates are rounded: the results then agree up to rounding only,
    and not at all when the shift is so large that it absorbs the distance
    between a point and a centre. *)
Theorem translation_invariant (G SI2MGAL CM T2NT : R) (tx ty tz : R) (xp yp zp : ndarray)
    (spheres : list (option Sphere.t)) (inc dec : val) :
  shape xp = shape yp → shape yp = shape zp → wf xp → wf yp → wf zp →
  let xp' := arr_map (fun v => (v + Finite tx)%V) xp in
  let yp' := arr_map (fun v => (v + Finite ty)%V) yp in
  let zp' := arr_map (fun v => (v + Finite tz)%V) zp in
  let spheres' := shift_source (Finite tx) (Finite ty) (Finite tz) <$> spheres in
  tf CM T2NT xp' yp' zp' spheres' inc dec = tf CM T2NT xp yp zp spheres inc dec
  ∧ gz G SI2MGAL xp' yp' zp' spheres' = gz G SI2MGAL xp yp zp spheres.
Proof.
  intros Hxy Hyz Wx Wy Wz xp' yp' zp' spheres'.
  assert (Wx' : wf xp') by (unfold wf, xp'; simpl; rewrite length_fmap; exact Wx).
  assert (Wy' : wf yp') by (unfold wf, yp'; simpl; rewrite length_fmap; exact Wy).
  assert (Wz' : wf zp') by (unfold wf, zp'; simpl; rewrite length_fmap; exact Wz).
  assert (Hon : ∀ F F' : point → val,
            (∀ p, F' ((p.1.1 + Finite tx)%V, (p.1.2 + Finite ty)%V, (p.2 + Finite tz)%V) = F p) →
            on (shape xp') (points xp' yp' zp') F' = on (shape xp) (points xp yp zp) F).
  { intros F F' E. unfold xp', yp', zp'. rewrite points_shift. unfold on. simpl. f_equal.
    rewrite <- list_fmap_compose. apply list_fmap_ext. intros _ p _. apply E. }
  split.
  - rewrite (tf_one_shape CM T2NT xp' yp' zp') by assumption.
    rewrite (tf_one_shape CM T2NT xp yp zp) by assumption.
    unfold spheres'. rewrite override_calls_shift. f_equal. f_equal.
    apply Hon. intros p. f_equal. apply foldl_fmap_ext. intros o acc.
    apply tf_point_shift.
  - rewrite (gz_one_shape G SI2MGAL xp' yp' zp') by assumption.
    rewrite (gz_one_shape G SI2MGAL xp yp zp) by assumption.
    unfold ret. f_equal. f_equal.
    apply Hon. intros p. f_equal. apply foldl_fmap_ext. intros o acc.
    apply gz_point_shift.
Qed.

Lemma translation_invariant_witness :
  gz (6673 / 10 ^ 14) (10 ^ 5)
     (arr_map (fun v => (v + Finite 10)%V) (arange 2))
     (arr_map (fun v => (v + Finite 20)%V) (arange 2))
     (arr_map (fun v => (v + Finite 30)%V) (arange 2))
     (shift_source (Finite 10) (Finite 20) (Finite 30) <$> [Some ball; None])
  = gz (6673 / 10 ^ 14) (10 ^ 5) (arange 2) (arange 2) (arange 2) [Some ball; None].
Proof.
  apply (translation_invariant (6673 / 10 ^ 14) (10 ^ 5) (1 / 10 ^ 7) (10 ^ 9) 10 20 30
           (arange 2) (arange 2) (arange 2) [Some ball; None] (Finite 0) (Finite 0));
    reflexivity.
Defined.

(** ** The attraction on the vertical of a source *)

Lemma Rpower_sqr_3_2 (d : R) : 0 < d → Rpower (d ^ 2) (3 / 2) = d ^ 3.
Proof.
  intros Hd. rewrite <- (Rpower_pow 2 d Hd), Rpower_mult.
  replace (INR 2 * (3 / 2)) with (INR 3) by (simpl; lra).
  apply Rpower_pow, Hd.
Qed.

Lemma gz_contribution_vertical (s : Sphere.t) (sx sy sz rad rho d : R) :
  Sphere.x s = Finite sx → Sphere.y s = Finite sy → Sphere.z s = Finite sz →
  Sphere.radius s = Finite rad → d ≠ 0 →
  gz_contribution s (Finite rho) (Finite sx, Finite sy, Finite (sz + d))
  = Finite (rho * (4 / 3 * PI * rad ^ 3) * d / Rabs d ^ 3).
Proof.
  intros Hx Hy Hz Hr Hd. unfold gz_contribution, volume. rewrite Hx, Hy, Hz, Hr.
  rewrite (div_finite 4 3) by lra. cbn [fst snd].
  change (powi (Finite sx - Finite sx) 2 + powi (Finite sy - Finite sy) 2
          + powi (Finite (sz + d) - Finite sz) 2)%V
    with (Finite ((sx - sx) ^ 2 + (sy - sy) ^ 2 + (sz + d - sz) ^ 2)).
  replace ((sx - sx) ^ 2 + (sy - sy) ^ 2 + (sz + d - sz) ^ 2) with (Rabs d ^ 2)
    by (rewrite pow2_abs; ring).
  assert (Ha : 0 < Rabs d) by (apply Rabs_pos_lt, Hd).
  unfold powf. destruct (Rlt_dec 0 (Rabs d ^ 2)) as [_|N]; [|exfalso; apply N; nra].
  rewrite Rpower_sqr_3_2 by exact Ha.
  unfold pi, powi, lift1, mul, sub, lift2.
  rewrite div_finite by (apply pow_nonzero; lra).
  f_equal. f_equal. ring.
Qed.

(** X7: for one sphere, at an observation point on the vertical of its
    centre at the distance [d] below it (z points down), [gz] is
    [G*SI2MGAL*density*(4/3)*pi*radius^3/d^2]; at the distance [d] above
    it, the opposite. *)
Theorem gz_on_the_vertical (G SI2MGAL : R) (xp yp zp : ndarray) (s : Sphere.t)
    (sx sy sz rad rho d : R) (i : nat) :
  shape xp = shape yp → shape yp = shape zp → wf xp → wf yp → wf zp →
  Sphere.x s = Finite sx → Sphere.y s = Finite sy → Sphere.z s = Finite sz →
  Sphere.radius s = Finite rad → Sphere.props s !! "density" = Some (Finite rho) →
  data xp !! i = Some (Finite sx) → data yp !! i = Some (Finite sy) →
  data zp !! i = Some (Finite (sz + d)) →
  ∃ out, outcome (gz G SI2MGAL xp yp zp [Some s]) = Ok out
         ∧ (0 < d → data out !! i
                    = Some (Finite (G * SI2MGAL * (rho * (4 / 3 * PI * rad ^ 3)) / d ^ 2)))
         ∧ (d < 0 → data out !! i
                    = Some (Finite (- (G * SI2MGAL * (rho * (4 / 3 * PI * rad ^ 3)) / d ^ 2)))).
Proof.
  intros Hxy Hyz Wx Wy Wz Hx Hy Hz Hr Hrho Hpx Hpy Hpz.
  eexists. split; [rewrite gz_one_shape by assumption; reflexivity|].
  assert (H : ∀ v, d ≠ 0 → rho * (4 / 3 * PI * rad ^ 3) * d / Rabs d ^ 3 = v →
            data (on (shape xp) (points xp yp zp) (fun p =>
                    (Finite G * Finite SI2MGAL
                     * foldl (fun acc o => gz_point o p acc) (Finite 0) [Some s])%V)) !! i
            = Some (Finite (G * SI2MGAL * v))).
  { intros v Hd Hv.
    rewrite (on_lookup _ _ _ _ _ _ (Finite sx, Finite sy, Finite (sz + d)))
      by (apply points_lookup; assumption).
    cbn [foldl]. rewrite (gz_point_contribution _ (Finite rho)) by exact Hrho.
    rewrite (gz_contribution_vertical s sx sy sz rad rho d) by assumption.
    rewrite Hv. simpl. do 2 f_equal. lra. }
  split; intros Hd.
  - rewrite (H (rho * (4 / 3 * PI * rad ^ 3) / d ^ 2)); [do 2 f_equal; field; lra|lra|].
    rewrite Rabs_pos_eq by lra. field. lra.
  - rewrite (H (- (rho * (4 / 3 * PI * rad ^ 3) / d ^ 2))); [do 2 f_equal; field; lra|lra|].
    rewrite Rabs_left by lra. field. lra.
Qed.

Lemma gz_on_the_vertical_witness :
  ∃ out, outcome (gz (6673 / 10 ^ 14) (10 ^ 5) (at_coord 0) (at_coord 0) (at_coord (0 + -5000))
                     [Some ball]) = Ok out
         ∧ data out !! 0%nat
           = Some (Finite (- (6673 / 10 ^ 14 * 10 ^ 5 * (1000 * (4 / 3 * PI * 1000 ^ 3))
                              / (-5000) ^ 2))).
Proof.
  destruct (gz_on_the_vertical (6673 / 10 ^ 14) (10 ^ 5) (at_coord 0) (at_coord 0)
              (at_coord (0 + -5000)) ball 0 0 0 1000 1000 (-5000) 0)
    as (out & H & _ & Hup); [reflexivity..|].
  exists out. split; [exact H|]. apply Hup. lra.
Defined.

(** ** Linearity in the physical property *)

Lemma mul_assoc (a b c : val) : (a * (b * c))%V = (a * b * c)%V.
Proof. destruct a, b, c; simpl; try reflexivity. f_equal. lra. Qed.

Lemma mul_comm (a b : val) : (a * b)%V = (b * a)%V.
Proof. destruct a, b; simpl; try reflexivity. f_equal. lra. Qed.

Lemma mul_div_assoc (a b c : val) : (a * b / c)%V = (a * (b / c))%V.
Proof.
  destruct a as [x|], b as [y|], c as [z|]; simpl; try reflexivity;
    destruct (Req_dec_T z 0); try reflexivity.
  simpl. f_equal. lra.
Qed.

Lemma scaled_moment (k q radius : val) :
  (k * q * Finite 4 * pi * powi radius 3 / Finite 3)%V
  = (k * (q * Finite 4 * pi * powi radius 3 / Finite 3))%V.
Proof. rewrite !moment_volume. symmetry. apply mul_assoc. Qed.

Lemma scale_prop_lookup (key : string) (k : val) (s : Sphere.t) :
  Sphere.props (scale_prop key k s) !! key
  = (fun v => (k * v)%V) <$> Sphere.props s !! key.
Proof. unfold scale_prop. simpl. apply lookup_alter_eq. Qed.

Lemma scale_prop_lookup_ne (key key' : string) (k : val) (s : Sphere.t) :
  key ≠ key' → Sphere.props (scale_prop key k s) !! key' = Sphere.props s !! key'.
Proof. intros N. unfold scale_prop. simpl. apply lookup_alter_ne, N. Qed.

Lemma gz_point_scale (k : val) (o : option Sphere.t) (p : point) (acc : val) :
  gz_point (scale_source "density" k o) p (k * acc)%V = (k * gz_point o p acc)%V.
Proof.
  destruct o as [s|]; [|reflexivity]. unfold scale_source.
  cbn [fmap option_fmap option_map]. unfold gz_point.
  rewrite scale_prop_lookup. destruct (Sphere.props s !! "density") as [rho|]; [|reflexivity].
  cbn [fmap option_fmap option_map]. cbv zeta.
  change (Sphere.radius (scale_prop "density" k s)) with (Sphere.radius s).
  change (Sphere.x (scale_prop "density" k s)) with (Sphere.x s).
  change (Sphere.y (scale_prop "density" k s)) with (Sphere.y s).
  change (Sphere.z (scale_prop "density" k s)) with (Sphere.z s).
  rewrite scaled_moment, mul_add_distr, <- mul_assoc, mul_div_assoc. reflexivity.
Qed.

Lemma mul_swap (a k b : val) : (a * (k * b))%V = (k * (a * b))%V.
Proof. rewrite !mul_assoc, (mul_comm a k). reflexivity. Qed.

Lemma scaled_component (f k m n r : val) :
  (f * (k * m * n / r))%V = (k * (f * (m * n / r)))%V.
Proof.
  rewrite <- (mul_assoc k), mul_div_assoc, !mul_assoc, (mul_comm f k). reflexivity.
Qed.

Lemma tf_point_scale (fx fy fz k : val) (o : option Sphere.t) (p : point) (acc : val) :
  tf_point fx fy fz (scale_source "magnetization" k o) p (k * acc)%V
  = (k * tf_point fx fy fz o p acc)%V.
Proof.
  destruct o as [s|]; [|reflexivity]. unfold scale_source.
  cbn [fmap option_fmap option_map]. unfold tf_point.
  rewrite scale_prop_lookup, !scale_prop_lookup_ne by discriminate.
  destruct (Sphere.props s !! "magnetization") as [mag|]; [|reflexivity].
  cbn [fmap option_fmap option_map].
  destruct (match Sphere.props s !! "inclination" with
            | Some i => match Sphere.props s !! "declination" with
                        | Some d => _dircos i d | None => (fx, fy, fz) end
            | None => (fx, fy, fz) end) as [[mx my] mz].
  cbv zeta.
  change (Sphere.radius (scale_prop "magnetization" k s)) with (Sphere.radius s).
  change (Sphere.x (scale_prop "magnetization" k s)) with (Sphere.x s).
  change (Sphere.y (scale_prop "magnetization" k s)) with (Sphere.y s).
  change (Sphere.z (scale_prop "magnetization" k s)) with (Sphere.z s).
  rewrite scaled_moment, !scaled_component, <- !mul_add_distr. reflexivity.
Qed.

Lemma foldl_scale {A : Type} (step step' : A → val → val) (h : A → A) (k : R)
    (l : list A) (acc : val) :
  (∀ a acc, step' (h a) (Finite k * acc)%V = (Finite k * step a acc)%V) →
  foldl (fun acc a => step' a acc) (Finite k * acc)%V (h <$> l)
  = (Finite k * foldl (fun acc a => step a acc) acc l)%V.
Proof.
  intros E. revert acc. induction l as [|a l IH]; intros acc; [reflexivity|].
  rewrite fmap_cons. cbn [foldl]. rewrite E. apply IH.
Qed.

Lemma scale_zero (k : R) : (Finite k * Finite 0)%V = Finite 0.
Proof. simpl. f_equal. lra. Qed.

Lemma override_calls_scale (k : val) (l : list (option Sphere.t)) :
  flat_map override_calls (scale_source "magnetization" k <$> l) = flat_map override_calls l.
Proof.
  induction l as [|o l IH]; [reflexivity|]. rewrite fmap_cons. cbn [flat_map].
  rewrite IH. f_equal. destruct o as [s|]; [|reflexivity].
  unfold scale_source, override_calls. cbn [fmap option_fmap option_map].
  rewrite scale_prop_lookup, !scale_prop_lookup_ne by discriminate.
  destruct (Sphere.props s !! "magnetization"); reflexivity.
Qed.

(** X8: over exact real arithmetic, multiplying the magnetization of every
    source by a factor [k] multiplies the output of [tf] by [k], and
    likewise for the density and [gz]; the calls to [_dircos] stay the
    same.  In floating point the two sides are rounded at different steps
    and agree up to rounding only. *)
Theorem linear_in_the_property (G SI2MGAL CM T2NT : R) (k : R) (xp yp zp : ndarray)
    (spheres : list (option Sphere.t)) (inc dec : val) :
  shape xp = shape yp → shape yp = shape zp → wf xp → wf yp → wf zp →
  (∃ out, tf CM T2NT xp yp zp spheres inc dec
          = ((inc, dec) :: flat_map override_calls spheres, Ok out)
          ∧ tf CM T2NT xp yp zp (scale_source "magnetization" (Finite k) <$> spheres) inc dec
            = ((inc, dec) :: flat_map override_calls spheres,
               Ok (arr_map (fun v => (Finite k * v)%V) out)))
  ∧ (∃ out, gz G SI2MGAL xp yp zp spheres = ret out
            ∧ gz G SI2MGAL xp yp zp (scale_source "density" (Finite k) <$> spheres)
              = ret (arr_map (fun v => (Finite k * v)%V) out)).
Proof.
  intros Hxy Hyz Wx Wy Wz. split.
  - eexists. split; [apply tf_one_shape; assumption|].
    rewrite tf_one_shape by assumption. rewrite override_calls_scale, arr_map_on.
    f_equal. f_equal. apply on_ext. intros p. rewrite <- (scale_zero k) at 1.
    rewrite (foldl_scale (fun o acc => tf_point _ _ _ o p acc)
               (fun o acc => tf_point _ _ _ o p acc))
      by (intros o acc; apply tf_point_scale).
    apply mul_swap.
  - eexists. split; [apply gz_one_shape; assumption|].
    rewrite gz_one_shape by assumption.
    rewrite arr_map_on. unfold ret. f_equal. f_equal. apply on_ext. intros p. rewrite <- (scale_zero k) at 1.
    rewrite (foldl_scale (fun o acc => gz_point o p acc) (fun o acc => gz_point o p acc))
      by (intros o acc; apply gz_point_scale).
    apply mul_swap.
Qed.

Lemma linear_in_the_property_witness :
  ∃ out, gz (6673 / 10 ^ 14) (10 ^ 5) (arange 2) (arange 2) (arange 2) [Some ball; None]
         = ret out
         ∧ gz (6673 / 10 ^ 14) (10 ^ 5) (arange 2) (arange 2) (arange 2)
              (scale_source "density" (Finite 3) <$> [Some ball; None])
           = ret (arr_map (fun v => (Finite 3 * v)%V) out).
Proof.
  apply (linear_in_the_property (6673 / 10 ^ 14) (10 ^ 5) (1 / 10 ^ 7) (10 ^ 9) 3
           (arange 2) (arange 2) (arange 2) [Some ball; None] (Finite 0) (Finite 0));
    reflexivity.
Defined.

(** * Part IV: properties of the picking tools *)

Module MplFacts.
Import Mpl.

Lemma snoc_cases {A : Type} (l : list A) : l = [] ∨ ∃ l' a, l = l' ++ [a].
Proof.
  induction l as [|a l _] using rev_ind; [left; reflexivity|right; eauto].
Qed.

(** The event loop keeps what every callback keeps; it lets an exception
    out only when it does not resume. *)
Lemma show_invariant {S : Type} (inv : S → Prop) (resume : bool)
    (callback : event → cmd S unit) (events : list event) (s : S) :
  (∀ ev s, inv s → inv (callback ev s).1) →
  inv s → inv (show resume callback events s).1.
Proof.
  intros Hcb. revert s. induction events as [|ev rest IH]; intros s Hs; simpl; [exact Hs|].
  specialize (Hcb ev s Hs). destruct (callback ev s) as [s' [e|[]]]; simpl in *.
  - destruct resume; [apply IH, Hcb|exact Hcb].
  - apply IH, Hcb.
Qed.

Lemma show_no_exception {S : Type} (inv : S → Prop) (resume : bool)
    (callback : event → cmd S unit) (events : list event) (s : S) :
  (∀ ev s, inv s → inv (callback ev s).1 ∧ (callback ev s).2 = inr tt) →
  inv s → (show resume callback events s).2 = inr tt.
Proof.
  intros Hcb. revert s. induction events as [|ev rest IH]; intros s Hs; simpl; [reflexivity|].
  destruct (Hcb ev s Hs) as [Hi Hr]. destruct (callback ev s) as [s' [e|[]]]; simpl in *.
  - discriminate.
  - apply IH, Hi.
Qed.

Lemma show_app {S : Type} (resume : bool) (callback : event → cmd S unit)
    (l k : list event) (s : S) :
  (show resume callback l s).2 = inr tt →
  show resume callback (l ++ k) s = show resume callback k (show resume callback l s).1.
Proof.
  revert s. induction l as [|ev rest IH]; intros s H; simpl in *; [reflexivity|].
  destruct (callback ev s) as [s' [e|[]]].
  - destruct resume; [apply IH, H|discriminate].
  - apply IH, H.
Qed.

Lemma show_app_gen {S : Type} (resume : bool) (cb : event → cmd S unit)
    (l k : list event) (s : S) :
  show resume cb (l ++ k) s
  = match show resume cb l s with
    | (s', inr _) => show resume cb k s'
    | (s', inl e) => (s', inl e)
    end.
Proof.
  revert s. induction l as [|ev rest IH]; intros s; simpl; [reflexivity|].
  destruct (cb ev s) as [s' [e|[]]]; [|apply IH].
  destruct resume; [apply IH|reflexivity].
Qed.

Ltac crunch :=
  repeat first
    [ progress simpl
    | rewrite last_snoc
    | rewrite removelast_last
    | rewrite bool_decide_true by (rewrite ?length_app; simpl in *; lia)
    | rewrite bool_decide_false by (rewrite ?length_app; simpl in *; lia) ].

End MplFacts.

Module PolygonFacts.
Import Mpl DrawPolygon MplFacts.

Lemma polygon_guide_inv (px py : option R) (s : state) :
  inv s → inv (draw_guide px py s).1 ∧ (draw_guide px py s).2 = inr tt
          ∧ x (draw_guide px py s).1 = x s ∧ y (draw_guide px py s).1 = y s
          ∧ plotx (draw_guide px py s).1 = plotx s ∧ ploty (draw_guide px py s).1 = ploty s
          ∧ picking (draw_guide px py s).1 = picking s.
Proof.
  destruct s as [xs ys pxs pys p ax]. unfold inv. simpl. intros (Hl & Hline & Hp).
  unfold draw_guide, bind, read, final, tmpline_set_data. simpl.
  destruct (snoc_cases xs) as [->|(xs' & a & ->)]; simpl; [auto 10|].
  destruct (snoc_cases ys) as [->|(ys' & b & ->)];
    [rewrite length_app in Hl; simpl in Hl; lia|].
  rewrite bool_decide_true by (rewrite length_app; simpl; lia).
  simpl. rewrite !last_snoc. simpl. rewrite !last_snoc. simpl. auto 10.
Qed.

Lemma polygon_pick_inv (at_ : place) (button : Z) (s : state) :
  inv s →
  inv (pick at_ button s).1 ∧ (pick at_ button s).2 = inr tt
  ∧ (picking s = false →
     x (pick at_ button s).1 = x s ∧ y (pick at_ button s).1 = y s
     ∧ picking (pick at_ button s).1 = false).
Proof.
  destruct at_ as [xd yd|xd yd]; [|simpl; auto].
  destruct s as [xs ys pxs pys p ax]. unfold inv. simpl. intros (Hl & Hline & Hp).
  unfold pick, bind, read, append, assign, set_title, first, tmpline_set_data, fill,
    line_set_data.
  destruct p.
  - destruct Hp as [-> ->].
    destruct (Z.eqb_spec button 1) as [->|N1]; simpl.
    + split; [|split; [reflexivity|discriminate]].
      split; [rewrite !length_app; simpl; lia|]. split; [reflexivity|auto].
    + destruct (button =? 3)%Z, (button =? 2)%Z; simpl;
        try (split; [|split; [reflexivity|discriminate]]; auto).
      all: case_bool_decide; simpl;
        [split; [|split; [reflexivity|discriminate]]; auto|].
      all: destruct xs as [|x0 xs]; [simpl in *; lia|];
        destruct ys as [|y0 ys]; [simpl in *; lia|]; simpl.
      all: split; [|split; [reflexivity|discriminate]].
      all: split; [assumption|]; split; [reflexivity|].
      all: split; [simpl in *; lia|]; exists 0%nat, x0, y0; auto.
  - destruct Hp as (H3 & n & x0 & y0 & Hx0 & Hy0 & -> & ->).
    rewrite !andb_false_r. simpl. rewrite ?andb_false_r, ?orb_false_r. simpl.
    destruct (button =? 3)%Z; simpl.
    + rewrite bool_decide_false by lia. simpl. rewrite Hx0. simpl. rewrite Hy0. simpl.
      split; [|split; [reflexivity|auto]].
      split; [assumption|]. split; [reflexivity|]. split; [assumption|].
      exists (S n), x0, y0. split; [assumption|]. split; [assumption|].
      rewrite <- !app_assoc. simpl. rewrite <- !replicate_cons_app. auto.
    + split; [|split; [reflexivity|auto]].
      split; [assumption|]. split; [reflexivity|]. split; [assumption|].
      exists n, x0, y0. auto.
Qed.

Lemma polygon_move_inv (at_ : place) (s : state) :
  inv s →
  inv (move at_ s).1 ∧ (move at_ s).2 = inr tt
  ∧ x (move at_ s).1 = x s ∧ y (move at_ s).1 = y s ∧ picking (move at_ s).1 = picking s.
Proof.
  intros Hs. destruct at_ as [xd yd|xd yd]; [|simpl; auto].
  unfold move, bind, read. simpl. destruct (picking s) eqn:Hp; [|simpl; auto].
  destruct (polygon_guide_inv (Some xd) (Some yd) s Hs) as (H1 & H2 & H3 & H4 & _ & _ & H5).
  rewrite Hp in H5. auto.
Qed.

Local Arguments draw_guide : simpl never.

Lemma polygon_erase_inv (key : string) (at_ : place) (s : state) :
  inv s →
  inv (erase key at_ s).1
  ∧ ((erase key at_ s).2 = inr tt
     ∨ (erase key at_ s).2 = inl IndexError ∧ (erase key at_ s).1 = s)
  ∧ (picking s = false → erase key at_ s = (s, inr tt)).
Proof.
  destruct s as [xs ys pxs pys p ax]. intros Hs.
  unfold erase, bind, read, pop, line_set_data. simpl.
  destruct (String.eqb key "e"), p; simpl;
    try (split; [exact Hs|split; [left; reflexivity|intros _; reflexivity]]).
  destruct Hs as (Hl & Hline & Hp). simpl in *. destruct Hp as [-> ->].
  destruct (snoc_cases xs) as [->|(xs' & a & ->)].
  { simpl in *. split; [repeat split; assumption|]. split; [right; auto|discriminate]. }
  destruct (snoc_cases ys) as [->|(ys' & b & ->)];
    [rewrite length_app in Hl; simpl in Hl; lia|].
  rewrite !length_app in Hl; simpl in Hl.
  crunch.
  match goal with
  | |- context [draw_guide ?a ?b ?s0] =>
      destruct (polygon_guide_inv a b s0) as (H1 & H2 & _);
        [unfold inv; simpl; repeat split; lia|]
  end.
  split; [exact H1|]. split; [left; exact H2|discriminate].
Qed.

Lemma polygon_callback_inv (ev : event) (s : state) :
  inv s →
  inv (callback ev s).1
  ∧ (∀ e, (callback ev s).2 = inl e → e = IndexError)
  ∧ (picking s = false →
     (callback ev s).2 = inr tt
     ∧ x (callback ev s).1 = x s ∧ y (callback ev s).1 = y s
     ∧ picking (callback ev s).1 = false).
Proof.
  intros Hs. destruct ev as [at_ b|key at_|at_]; simpl.
  - destruct (polygon_pick_inv at_ b s Hs) as (H1 & H2 & H3).
    split; [exact H1|]. split; [intros e E; congruence|]. intros Hp. split; [exact H2|auto].
  - destruct (polygon_erase_inv key at_ s Hs) as (H1 & H2 & H3).
    split; [exact H1|]. split.
    + intros e E. destruct H2 as [H2|[H2 _]]; congruence.
    + intros Hp. rewrite (H3 Hp). simpl. auto.
  - destruct (polygon_move_inv at_ s Hs) as (H1 & H2 & H3 & H4 & H5).
    split; [exact H1|]. split; [intros e E; congruence|]. intros Hp.
    rewrite H5. auto.
Qed.

Lemma draw_polygon_unfold (resume : bool) (area : R * R * R * R) (xy2ne : bool)
    (events : list event) :
  draw_polygon resume area xy2ne events
  = match show resume callback events (start area xy2ne) with
    | (s, inr _) => (s, finish xy2ne s)
    | (s, inl e) => (s, inl e)
    end.
Proof.
  destruct area as [[[a0 a1] a2] a3]. unfold draw_polygon, start, finish.
  destruct xy2ne; unfold bind; simpl;
    destruct (show resume callback events _) as [s [e|[]]]; simpl; try reflexivity;
    case_bool_decide; reflexivity.
Qed.

Lemma polygon_start_inv (area : R * R * R * R) (xy2ne : bool) : inv (start area xy2ne).
Proof. destruct area as [[[a0 a1] a2] a3]. unfold inv. simpl. auto. Qed.

Lemma polygon_show_inv (resume : bool) (events : list event) (s : state) :
  inv s →
  inv (show resume callback events s).1
  ∧ ∀ e, (show resume callback events s).2 = inl e →
         e = IndexError ∧ resume = false ∧ picking (show resume callback events s).1 = true.
Proof.
  revert s. induction events as [|ev rest IH]; intros s Hs; simpl.
  - split; [exact Hs|]. intros e E. discriminate E.
  - destruct (polygon_callback_inv ev s Hs) as (Hi & He & Hc).
    destruct (callback ev s) as [s' [e|[]]] eqn:Ecb; simpl in *.
    + destruct resume; [apply IH, Hi|]. simpl. split; [exact Hi|].
      intros e' E. injection E as <-. split; [apply He; reflexivity|]. split; [reflexivity|].
      destruct (picking s) eqn:Hp.
      * destruct ev as [at_ b|key at_|at_]; simpl in Ecb.
        -- destruct (polygon_pick_inv at_ b s Hs) as (_ & H & _). rewrite Ecb in H. discriminate.
        -- destruct (polygon_erase_inv key at_ s Hs) as (_ & [H|[_ H]] & _); rewrite Ecb in H;
             [discriminate|]. simpl in H. subst s'. exact Hp.
        -- destruct (polygon_move_inv at_ s Hs) as (_ & H & _). rewrite Ecb in H. discriminate.
      * destruct (Hc eq_refl) as [H _]. discriminate.
    + apply IH, Hi.
Qed.

Lemma polygon_show_closed (resume : bool) (events : list event) (s : state) :
  inv s → picking s = false →
  (show resume callback events s).2 = inr tt
  ∧ x (show resume callback events s).1 = x s
  ∧ y (show resume callback events s).1 = y s.
Proof.
  revert s. induction events as [|ev rest IH]; intros s Hs Hp; simpl; [auto|].
  destruct (polygon_callback_inv ev s Hs) as (Hi & _ & Hc). destruct (Hc Hp) as (Hr & Hx & Hy & Hp').
  destruct (callback ev s) as [s' [e|[]]]; simpl in *; [discriminate|].
  destruct (IH s' Hi Hp') as (H1 & H2 & H3). rewrite H1, H2, H3. auto.
Qed.

(** X9: whatever the user does, [draw_polygon] either returns an array of
    at least 3 rows [[x, y]] (or [[y, x]] with [xy2ne]), one per point kept,
    or raises [ValueError] because fewer than 3 points are left; the only
    other outcome is the [IndexError] of an erasure with nothing to erase,
    when the event loop lets it through. *)
Theorem polygon_result (resume : bool) (area : R * R * R * R) (xy2ne : bool)
    (events : list event) :
  let s := (draw_polygon resume area xy2ne events).1 in
  let r := (draw_polygon resume area xy2ne events).2 in
  (∀ v, r = inr v →
        (3 ≤ length (x s))%nat ∧ length (x s) = length (y s)
        ∧ v = Rows (if xy2ne then zip (y s) (x s) else zip (x s) (y s)))
  ∧ (∀ e, r = inl e →
          e = ValueError need3 ∧ (length (x s) < 3)%nat
          ∨ e = IndexError ∧ resume = false).
Proof.
  rewrite draw_polygon_unfold.
  destruct (polygon_show_inv resume events (start area xy2ne) (polygon_start_inv area xy2ne)) as [Hi He].
  destruct (show resume callback events (start area xy2ne)) as [s [e|[]]]; simpl in *.
  - split; [intros v E; discriminate E|]. intros e' E. injection E as <-.
    right. destruct (He e eq_refl) as (-> & -> & _). auto.
  - destruct Hi as (Hl & _). unfold finish. case_bool_decide as H3; split.
    + intros v E. discriminate E.
    + intros e E. injection E as <-. left. auto.
    + intros v E. injection E as <-. split; [lia|]. split; [exact Hl|].
      unfold transpose2. destruct xy2ne; rewrite bool_decide_true by lia; reflexivity.
    + intros e E. discriminate E.
Qed.

(** X10: once the polygon is closed, nothing the user does changes what
    [draw_polygon] returns, and it does return an array. *)
Theorem polygon_closed_is_final (resume : bool) (area : R * R * R * R) (xy2ne : bool)
    (events more : list event) :
  picking (draw_polygon resume area xy2ne events).1 = false →
  (draw_polygon resume area xy2ne (events ++ more)).2
  = (draw_polygon resume area xy2ne events).2
  ∧ ∃ v, (draw_polygon resume area xy2ne events).2 = inr v.
Proof.
  rewrite !draw_polygon_unfold, show_app_gen.
  destruct (polygon_show_inv resume events (start area xy2ne) (polygon_start_inv area xy2ne)) as [Hi He].
  destruct (show resume callback events (start area xy2ne)) as [s [e|[]]]; simpl in *.
  - intros Hp. destruct (He e eq_refl) as (_ & _ & Hp'). congruence.
  - intros Hp. destruct (polygon_show_closed resume more s Hi Hp) as (H1 & H2 & H3).
    destruct (show resume callback more s) as [s' [e|[]]]; simpl in *; [discriminate|].
    destruct Hi as (_ & _ & Hc). rewrite Hp in Hc. destruct Hc as [H3' _].
    unfold finish. rewrite H2, H3, !bool_decide_false by lia. eauto.
Qed.

Lemma polygon_show_clicks (resume : bool) (pts : list (R * R)) (s : state) :
  picking s = true →
  (show resume callback (clicks pts) s).2 = inr tt
  ∧ x (show resume callback (clicks pts) s).1 = x s ++ pts.*1
  ∧ y (show resume callback (clicks pts) s).1 = y s ++ pts.*2
  ∧ picking (show resume callback (clicks pts) s).1 = true.
Proof.
  revert s. induction pts as [|[a b] pts IH]; intros s Hp; simpl.
  - rewrite !app_nil_r. auto.
  - destruct s as [xs ys pxs pys p ax]. simpl in Hp. subst p.
    unfold pick, bind, read, append, line_set_data. simpl.
    match goal with
    | |- context [show resume callback (clicks pts) ?s0] =>
        destruct (IH s0 eq_refl) as (H1 & H2 & H3 & H4)
    end.
    rewrite H1, H2, H3, H4. simpl. rewrite <- !app_assoc. auto.
Qed.

(** X11: after left clicks in the axes and one right click,
    [draw_polygon] returns the clicked points in the order of the clicks
    (columns exchanged with [xy2ne]) and the polygon is closed, when there
    are at least 3 of them; with fewer it raises [ValueError], the right
    click having only put the message in the title. *)
Theorem polygon_of_clicks (resume : bool) (area : R * R * R * R) (xy2ne : bool)
    (pts : list (R * R)) (a b : R) :
  let events := clicks pts ++ [ButtonPress (Inside a b) 3] in
  ((3 ≤ length pts)%nat →
   (draw_polygon resume area xy2ne events).2
   = inr (Rows (if xy2ne then prod_swap <$> pts else pts))
   ∧ picking (draw_polygon resume area xy2ne events).1 = false)
  ∧ ((length pts < 3)%nat →
     (draw_polygon resume area xy2ne events).2 = inl (ValueError need3)
     ∧ title (axes (draw_polygon resume area xy2ne events).1) = need3).
Proof.
  intros events. unfold events. rewrite draw_polygon_unfold, show_app_gen.
  assert (Hs : picking (start area xy2ne) = true) by (destruct area as [[[? ?] ?] ?]; reflexivity).
  assert (Hx : x (start area xy2ne) = []) by (destruct area as [[[? ?] ?] ?]; reflexivity).
  assert (Hy : y (start area xy2ne) = []) by (destruct area as [[[? ?] ?] ?]; reflexivity).
  destruct (polygon_show_clicks resume pts (start area xy2ne) Hs) as (H1 & H2 & H3 & H4).
  rewrite Hx, Hy in *. simpl in H2, H3.
  destruct (show resume callback (clicks pts) (start area xy2ne)) as [s [e|[]]];
    simpl in *; [discriminate|].
  destruct s as [xs ys pxs pys p ax]. simpl in *. subst xs ys p.
  unfold pick, bind, read, append, assign, set_title, first, tmpline_set_data, fill,
    line_set_data. simpl.
  split; intros Hn.
  - rewrite bool_decide_false by (rewrite length_fmap; lia). simpl.
    destruct pts as [|[a0 b0] pts]; [simpl in Hn; lia|]. simpl.
    unfold finish. simpl. rewrite bool_decide_false by (simpl in *; rewrite length_fmap; lia).
    split; [|reflexivity]. f_equal. unfold transpose2.
    destruct xy2ne; rewrite bool_decide_true by (simpl; rewrite !length_fmap; reflexivity).
    + f_equal. simpl. f_equal. clear. induction pts as [|[c d] l IH]; simpl; [reflexivity|].
      f_equal. exact IH.
    + f_equal. simpl. f_equal. apply zip_fst_snd.
  - rewrite bool_decide_true by (rewrite length_fmap; lia). simpl.
    unfold finish. simpl. rewrite bool_decide_true by (rewrite length_fmap; lia). auto.
Qed.

(** X12: a left click followed by the key 'e' at the end of a session
    leaves the result of [draw_polygon] as it was. *)
Theorem polygon_erase_undoes_click (resume : bool) (area : R * R * R * R) (xy2ne : bool)
    (events : list event) (a b : R) (at_ : place) :
  (draw_polygon resume area xy2ne
     (events ++ [ButtonPress (Inside a b) 1; KeyPress "e" at_])).2
  = (draw_polygon resume area xy2ne events).2.
Proof.
  rewrite !draw_polygon_unfold, show_app_gen.
  destruct (polygon_show_inv resume events (start area xy2ne) (polygon_start_inv area xy2ne)) as [Hi _].
  destruct (show resume callback events (start area xy2ne)) as [s [e|[]]];
    cbn [fst snd] in *; [reflexivity|].
  cbn [show callback].
  destruct (polygon_pick_inv (Inside a b) 1 s Hi) as (Hi1 & Hr1 & Hc1).
  destruct (picking s) eqn:Hp.
  - clear Hi1 Hr1 Hc1. destruct s as [xs ys pxs pys p ax]. simpl in Hp. subst p.
    destruct Hi as (Hl & Hline & Hq). simpl in *. destruct Hq as [-> ->].
    unfold pick, erase, bind, read, append, pop, line_set_data. crunch.
    match goal with
    | |- context [draw_guide ?u ?v ?s0] =>
        destruct (polygon_guide_inv u v s0) as (_ & H2 & H3 & H4 & _);
          [unfold inv; simpl; auto|]
    end.
    destruct (draw_guide _ _ _) as [s' [e|[]]]; simpl in *; [discriminate|].
    unfold finish. rewrite H3, H4. reflexivity.
  - destruct (Hc1 eq_refl) as (Hx1 & Hy1 & Hp1).
    destruct (pick (Inside a b) 1 s) as [s1 [e|[]]]; cbn [fst snd] in *; [discriminate|].
    destruct (polygon_erase_inv "e" at_ s1 Hi1) as (_ & _ & He). rewrite (He Hp1).
    unfold ret, finish. cbn [fst snd]. rewrite Hx1, Hy1. reflexivity.
Qed.

Lemma polygon_closed_is_final_witness :
  (draw_polygon true (0, 1, 0, 1) false
     ((clicks [(0, 0); (1, 0); (1, 1)] ++ [ButtonPress (Inside 2 2) 3])
      ++ [ButtonPress (Inside 5 5) 1; KeyPress "e" (Outside None None)])).2
  = (draw_polygon true (0, 1, 0, 1) false
       (clicks [(0, 0); (1, 0); (1, 1)] ++ [ButtonPress (Inside 2 2) 3])).2.
Proof.
  apply (polygon_closed_is_final true (0, 1, 0, 1) false
           (clicks [(0, 0); (1, 0); (1, 1)] ++ [ButtonPress (Inside 2 2) 3])
           [ButtonPress (Inside 5 5) 1; KeyPress "e" (Outside None None)]).
  reflexivity.
Defined.

Lemma polygon_of_clicks_witness :
  (draw_polygon false (0, 1, 0, 1) true
     (clicks [(0, 0); (1, 0); (1, 1)] ++ [ButtonPress (Inside 2 2) 3])).2
  = inr (Rows [(0, 0); (0, 1); (1, 1)]).
Proof.
  apply (polygon_of_clicks false (0, 1, 0, 1) true [(0, 0); (1, 0); (1, 1)] 2 2).
  simpl. lia.
Defined.

End PolygonFacts.

Module PointsFacts.
Import Mpl PickPoints MplFacts.

Lemma points_callback_holds (ev : event) (s : state) (pts : list (R * R)) :
  holds s pts →
  holds (callback ev s).1 (picked_step pts ev)
  ∧ ((callback ev s).2 = inr tt
     ∨ (callback ev s).2 = inl IndexError ∧ (callback ev s).1 = s).
Proof.
  destruct s as [xs ys pxs pys p ax]. unfold holds. simpl.
  intros (-> & -> & -> & -> & -> & Hline).
  destruct ev as [[a b|a b] button|key at_|at_]; simpl; auto 10.
  - unfold pick, bind, read, append, line_set_data. simpl.
    destruct (button =? 1)%Z; simpl; [|auto 10].
    rewrite !fmap_app. simpl. auto 10.
  - unfold erase, bind, read, pop, line_set_data. simpl.
    destruct (String.eqb key "e"); simpl; [|auto 10].
    destruct (snoc_cases pts) as [->|(pts' & [a b] & ->)]; simpl; [auto 10|].
    rewrite !fmap_app. simpl. crunch. rewrite ?removelast_last. auto 10.
Qed.

Lemma points_show_holds (resume : bool) (events : list event) (s : state) (pts : list (R * R)) :
  holds s pts →
  ((show resume callback events s).2 = inr tt
   ∧ holds (show resume callback events s).1 (foldl picked_step pts events))
  ∨ ((show resume callback events s).2 = inl IndexError ∧ resume = false).
Proof.
  revert s pts. induction events as [|ev rest IH]; intros s pts Hs; simpl; [auto|].
  destruct (points_callback_holds ev s pts Hs) as [Hh Hr].
  destruct (callback ev s) as [s' [e|[]]]; simpl in *.
  - destruct Hr as [Hr|[Hr ->]]; [discriminate|]. injection Hr as ->.
    destruct resume; [apply IH, Hh|auto].
  - apply IH, Hh.
Qed.

(** X13: [points] returns the rows [[x, y]] of the points left by the
    session, where a left click in the axes adds a point and the key 'e'
    removes the last one, and its line shows these points; the only other
    outcome is the [IndexError] of an erasure with no point to erase, when
    the event loop lets it through. *)
Theorem points_result (resume : bool) (area : R * R * R * R) (events : list event) :
  let s := (points resume area events).1 in
  let r := (points resume area events).2 in
  (r = inr (Rows (picked events)) ∧ line (axes s) = ((picked events).*1, (picked events).*2))
  ∨ (r = inl IndexError ∧ resume = false).
Proof.
  destruct area as [[[a0 a1] a2] a3]. unfold points, bind, set_title, set_xlim, set_ylim.
  simpl.
  match goal with
  | |- context [show resume callback events ?s0] =>
      destruct (points_show_holds resume events s0 []) as [[Hr Hh]|[Hr Hres]];
        [unfold holds; simpl; auto 10| |];
        destruct (show resume callback events s0) as [s [e|[]]]; simpl in *;
        try discriminate
  end.
  - left. destruct Hh as (-> & -> & _ & _ & _ & ->). unfold read, ret. simpl.
    split; [|reflexivity]. unfold transpose2.
    rewrite bool_decide_true by (rewrite !length_fmap; reflexivity).
    fold (picked events). rewrite zip_fst_snd. reflexivity.
  - right. injection Hr as ->. auto.
Qed.

End PointsFacts.

Module LayersFacts.
Import Mpl DrawLayers MplFacts.

Lemma increasing_snoc (l : list R) (t z : R) :
  increasing l → last l = Some t → t < z → increasing (l ++ [z]).
Proof.
  intros Hl Ht Hz i a b Ha Hb.
  destruct (decide (S i < length l)%nat) as [Hi|Hi].
  - rewrite lookup_app_l in Ha by lia. rewrite lookup_app_l in Hb by lia. eauto.
  - assert (Hlen : S i = length l).
    { apply lookup_lt_Some in Hb. rewrite length_app in Hb. simpl in Hb. lia. }
    rewrite lookup_app_l in Ha by lia. rewrite lookup_app_r in Hb by lia.
    rewrite last_lookup in Ht. replace (Nat.pred (length l)) with i in Ht by lia.
    replace (S i - length l)%nat with 0%nat in Hb by lia. simpl in Hb.
    congruence.
Qed.

Lemma increasing_init (l : list R) (z : R) : increasing (l ++ [z]) → increasing l.
Proof.
  intros H i a b Ha Hb. apply (H i); apply lookup_app_l_Some; assumption.
Qed.

Lemma layers_guide_inv (zmin : R) (v z : option R) (s : state) :
  inv zmin s → inv zmin (draw_guide v z s).1 ∧ (draw_guide v z s).2 = inr tt
               ∧ depths (draw_guide v z s).1 = depths s
               ∧ values (draw_guide v z s).1 = values s
               ∧ plotv (draw_guide v z s).1 = plotv s
               ∧ plotz (draw_guide v z s).1 = plotz s
               ∧ tmpz (draw_guide v z s).1 = tmpz s.
Proof.
  destruct s as [ds vs pv pz t p ax]. unfold inv. simpl.
  intros (Hp & Hh & Hl & Hn & Hi & Hv & Hz & Hline).
  unfold draw_guide, bind, read, final, tmpline_set_data. simpl.
  destruct (snoc_cases vs) as [->|(vs' & a & ->)]; simpl;
    [repeat split; assumption|].
  rewrite bool_decide_false by (rewrite length_app; simpl; lia). simpl.
  destruct (deeper z t); crunch; repeat split;
    first [assumption | reflexivity | (simpl in *; lia)].
Qed.

Local Arguments draw_guide : simpl never.

Lemma layers_callback_inv (zmin : R) (ev : event) (s : state) :
  inv zmin s → inv zmin (callback ev s).1 ∧ (callback ev s).2 = inr tt.
Proof.
  intros Hs. destruct ev as [[v z|v z] button|key at_|[v z|v z]]; simpl; auto.
  - destruct s as [ds vs pv pz t p ax].
    destruct Hs as (Hp & Hh & Hl & Hn & Hi & Hv & Hz & Hline). simpl in *. subst p.
    unfold pick, bind, read, append, extend, assign, line_set_data. simpl.
    destruct (button =? 1)%Z; simpl; [|unfold inv; simpl; auto 10].
    destruct (Rlt_dec t z) as [Htz|_]; simpl; [|unfold inv; simpl; auto 10].
    split; [|reflexivity]. unfold inv. simpl.
    split; [reflexivity|]. split.
    { destruct ds; [discriminate|exact Hh]. }
    split; [apply last_snoc|].
    rewrite !length_app. simpl.
    split; [lia|]. split; [eapply increasing_snoc; eassumption|].
    split; [lia|]. split; [lia|reflexivity].
  - destruct s as [ds vs pv pz t p ax].
    destruct Hs as (Hp & Hh & Hl & Hn & Hi & Hv & Hz & Hline). simpl in *. subst p.
    unfold erase, bind, read, pop, final, assign, line_set_data. simpl.
    destruct (snoc_cases vs) as [->|(vs' & a & ->)]; simpl.
    { unfold inv; simpl; auto 10. }
    rewrite bool_decide_true by (rewrite length_app; simpl; lia). simpl.
    destruct (String.eqb key "e"); simpl; [|unfold inv; simpl; auto 10].
    rewrite length_app in Hn, Hv, Hz. simpl in Hn, Hv, Hz.
    destruct (snoc_cases ds) as [->|(ds' & d & ->)]; [simpl in Hn; lia|].
    rewrite length_app in Hn. simpl in Hn.
    destruct (snoc_cases ds') as [->|(ds'' & d' & ->)]; [simpl in Hn; lia|].
    destruct (snoc_cases pv) as [->|(pv' & c1 & ->)]; [simpl in Hv; lia|].
    rewrite length_app in Hv. simpl in Hv.
    destruct (snoc_cases pv') as [->|(pv'' & c2 & ->)]; [simpl in Hv; lia|].
    destruct (snoc_cases pz) as [->|(pz' & e1 & ->)]; [simpl in Hz; lia|].
    rewrite length_app in Hz. simpl in Hz.
    destruct (snoc_cases pz') as [->|(pz'' & e2 & ->)]; [simpl in Hz; lia|].
    rewrite !length_app in *. simpl in *.
    crunch.
    match goal with
    | |- context [draw_guide ?u ?w ?s0] =>
        destruct (layers_guide_inv zmin u w s0) as (H1 & H2 & _); [|auto]
    end.
    unfold inv. simpl. split; [reflexivity|]. split.
    { destruct ds'' as [|d0 ds'']; [exact Hh|exact Hh]. }
    split; [apply last_snoc|]. rewrite !length_app. simpl.
    split; [lia|]. split; [eapply increasing_init; eassumption|].
    split; [lia|]. split; [lia|reflexivity].
  - unfold move, bind, read. simpl. destruct Hs as (Hp & Hrest). rewrite Hp.
    destruct (layers_guide_inv zmin (Some v) (Some z) s) as (H1 & H2 & _); [split; auto|].
    auto.
Qed.

Lemma layers_start_inv (area : R * R * R * R) : inv area.1.2 (start area).
Proof.
  destruct area as [[[vmin vmax] zmin] zmax]. unfold inv. simpl.
  repeat split; try reflexivity. intros i a b Ha Hb. destruct i; discriminate.
Qed.

Lemma layers_show_inv (zmin : R) (resume : bool) (events : list event) (s : state) :
  inv zmin s →
  inv zmin (show resume callback events s).1 ∧ (show resume callback events s).2 = inr tt.
Proof.
  intros Hs. split.
  - apply (show_invariant (inv zmin)); [|exact Hs]. intros ev s' Hs'.
    apply layers_callback_inv, Hs'.
  - apply (show_no_exception (inv zmin)); [|exact Hs]. intros ev s' Hs'.
    apply layers_callback_inv, Hs'.
Qed.

Lemma diffs_lookup (l : list R) (i : nat) (a b : R) :
  l !! i = Some a → l !! S i = Some b → diffs l !! i = Some (b - a).
Proof.
  intros Ha Hb. unfold diffs. rewrite lookup_zip_with, lookup_tail, Hb, Ha. reflexivity.
Qed.

Lemma diffs_length (l : list R) : length (diffs l) = (length l - 1)%nat.
Proof. unfold diffs. rewrite length_zip_with. destruct l; simpl; lia. Qed.

Lemma diffs_positive (l : list R) : increasing l → Forall (fun t => 0 < t) (diffs l).
Proof.
  intros Hl. apply Forall_lookup. intros i t Ht.
  assert (Hi : (i < length l - 1)%nat) by (rewrite <- diffs_length; eapply lookup_lt_Some, Ht).
  destruct (lookup_lt_is_Some_2 l i) as [a Ha]; [lia|].
  destruct (lookup_lt_is_Some_2 l (S i)) as [b Hb]; [lia|].
  rewrite (diffs_lookup l i a b Ha Hb) in Ht. injection Ht as <-.
  specialize (Hl i a b Ha Hb). lra.
Qed.

Lemma comprehension_diffs (s : state) (k m : nat) :
  (k + m + 1 ≤ length (depths s))%nat →
  comprehension (fun i => a <- item (i + 1) ;; b <- item i ;; ret (a - b)) (seq k m) s
  = (s, inr (take m (drop k (diffs (depths s))))).
Proof.
  revert k. induction m as [|m IH]; intros k Hk; simpl; [reflexivity|].
  destruct (lookup_lt_is_Some_2 (depths s) k) as [b Hb]; [lia|].
  destruct (lookup_lt_is_Some_2 (depths s) (S k)) as [a Ha]; [lia|].
  unfold bind at 1 2 3, item. replace (k + 1)%nat with (S k) by lia.
  rewrite Ha, Hb. unfold ret at 1. unfold bind. rewrite IH by lia.
  unfold ret. f_equal. f_equal.
  rewrite (drop_S _ (a - b) k) by (apply diffs_lookup; assumption). reflexivity.
Qed.

Lemma draw_layers_unfold (resume : bool) (area : R * R * R * R) (events : list event) :
  (show resume callback events (start area)).2 = inr tt →
  let s := (show resume callback events (start area)).1 in
  (1 ≤ length (depths s))%nat →
  draw_layers resume area events = (s, inr (diffs (depths s), values s)).
Proof.
  destruct area as [[[vmin vmax] zmin] zmax]. unfold draw_layers, start.
  unfold bind at 1 2 3 4 5, set_title, set_grid, set_xlim, set_ylim. simpl.
  destruct (show resume callback events _) as [s [e|[]]]; simpl; [discriminate|].
  intros _ Hn. unfold bind at 1 2, read at 1. simpl.
  rewrite (comprehension_diffs s 0) by lia. unfold read, ret. simpl.
  rewrite <- diffs_length, firstn_all. reflexivity.
Qed.

(** X14: whatever the user does, [draw_layers] raises nothing and returns
    as many thicknesses as values; every thickness is positive, being the
    difference between two neighbours of the list of depths, which runs
    from [zmin] to the current bottom. *)
Theorem layers_result (resume : bool) (area : R * R * R * R) (events : list event) :
  let s := (draw_layers resume area events).1 in
  ∃ thickness,
    (draw_layers resume area events).2 = inr (thickness, values s)
    ∧ length thickness = length (values s)
    ∧ Forall (fun t => 0 < t) thickness
    ∧ thickness = diffs (depths s)
    ∧ head (depths s) = Some area.1.2
    ∧ last (depths s) = Some (tmpz s).
Proof.
  destruct (layers_show_inv area.1.2 resume events (start area) (layers_start_inv area)) as [Hi Hr].
  rewrite (draw_layers_unfold resume area events Hr)
    by (destruct Hi as (_ & _ & _ & -> & _); lia).
  simpl. destruct Hi as (_ & Hh & Hl & Hn & Hinc & _).
  eexists. split; [reflexivity|]. split; [rewrite diffs_length; lia|].
  split; [apply diffs_positive, Hinc|]. split; [reflexivity|].
  split; assumption.
Qed.

Lemma layers_show_clicks (resume : bool) (pts : list (R * R)) (s : state) :
  picking s = true → last (depths s) = Some (tmpz s) →
  (show resume callback (clicks pts) s).2 = inr tt
  ∧ depths (show resume callback (clicks pts) s).1
    = depths s ++ (accepted (tmpz s) pts).*2
  ∧ values (show resume callback (clicks pts) s).1
    = values s ++ (accepted (tmpz s) pts).*1.
Proof.
  revert s. induction pts as [|[v z] pts IH]; intros s Hp Hl; simpl.
  - rewrite !app_nil_r. auto.
  - destruct s as [ds vs pv pz t p ax]. simpl in *. subst p.
    unfold pick, bind, read, append, extend, assign, line_set_data. simpl.
    destruct (Rlt_dec t z) as [Htz|Htz]; simpl.
    + match goal with
      | |- context [show resume callback (clicks pts) ?s0] =>
          destruct (IH s0 eq_refl) as (H1 & H2 & H3); [apply last_snoc|]
      end.
      simpl in *. rewrite H1, H2, H3, <- !app_assoc. auto.
    + match goal with
      | |- context [show resume callback (clicks pts) ?s0] =>
          destruct (IH s0 eq_refl Hl) as (H1 & H2 & H3)
      end.
      simpl in *. auto.
Qed.

(** X15: after a session of left clicks in the axes, the layers of
    [draw_layers] are the clicks that went deeper than every layer made
    before: their values, and the differences between their depths, the
    first one counted from [zmin]. *)
Theorem layers_of_clicks (resume : bool) (area : R * R * R * R) (pts : list (R * R)) :
  let made := accepted area.1.2 pts in
  (draw_layers resume area (clicks pts)).2
  = inr (diffs (area.1.2 :: made.*2), made.*1).
Proof.
  destruct (layers_show_inv area.1.2 resume (clicks pts) (start area) (layers_start_inv area)) as [Hi Hr].
  rewrite (draw_layers_unfold resume area (clicks pts) Hr)
    by (destruct Hi as (_ & _ & _ & -> & _); lia).
  assert (Hs : picking (start area) = true ∧ depths (start area) = [area.1.2]
               ∧ values (start area) = [] ∧ tmpz (start area) = area.1.2)
    by (destruct area as [[[? ?] ?] ?]; auto).
  destruct Hs as (Hp & Hd & Hv & Ht).
  destruct (layers_show_clicks resume pts (start area) Hp) as (_ & H2 & H3);
    [rewrite Hd, Ht; reflexivity|].
  simpl. rewrite H2, H3, Hd, Hv, Ht. reflexivity.
Qed.

(** X16: a left click that makes a layer, followed by the key 'e', at the
    end of a session leaves the result of [draw_layers] as it was. *)
Theorem layers_erase_undoes_click (resume : bool) (area : R * R * R * R)
    (events : list event) (v z : R) (at_ : place) :
  tmpz (draw_layers resume area events).1 < z →
  (draw_layers resume area (events ++ [ButtonPress (Inside v z) 1; KeyPress "e" at_])).2
  = (draw_layers resume area events).2.
Proof.
  destruct (layers_show_inv area.1.2 resume events (start area) (layers_start_inv area)) as [Hi Hr].
  destruct (layers_show_inv area.1.2 resume (events ++ [ButtonPress (Inside v z) 1; KeyPress "e" at_])
              (start area) (layers_start_inv area)) as [Hi' Hr'].
  rewrite (draw_layers_unfold resume area events Hr)
    by (destruct Hi as (_ & _ & _ & -> & _); lia).
  rewrite (draw_layers_unfold resume area _ Hr')
    by (destruct Hi' as (_ & _ & _ & -> & _); lia).
  simpl. clear Hi' Hr'. rewrite show_app by exact Hr.
  destruct (show resume callback events (start area)) as [s r]. simpl in *. clear r Hr.
  intros Hz. destruct s as [ds vs pv pz t p ax].
  destruct Hi as (Hp & Hh & Hl & Hn & Hinc & Hv & Hpz & Hline). simpl in *. subst p.
  unfold pick, erase, bind, read, append, extend, assign, pop, final, line_set_data. simpl.
  destruct (Rlt_dec t z) as [_|N]; [|contradiction]. simpl.
  rewrite bool_decide_true by (rewrite length_app; simpl; lia). simpl.
  change [t; z] with ([t] ++ [z]). change [v; v] with ([v] ++ [v]). rewrite !app_assoc.
  crunch. rewrite Hl. crunch.
  match goal with
  | |- context [draw_guide ?u ?w ?s0] =>
      destruct (layers_guide_inv area.1.2 u w s0) as (_ & H2 & H3 & H4 & _);
        [unfold inv; simpl; repeat split; assumption|]
  end.
  destruct (draw_guide _ _ _) as [s' [e|[]]]; simpl in *; [discriminate|].
  rewrite H3, H4. reflexivity.
Qed.

Lemma layers_erase_undoes_click_witness :
  (draw_layers true (0, 1, 0, 10) ([] ++ [ButtonPress (Inside 0.5 5) 1;
                                           KeyPress "e" (Outside None None)])).2
  = (draw_layers true (0, 1, 0, 10) []).2.
Proof.
  apply (layers_erase_undoes_click true (0, 1, 0, 10) [] 0.5 5 (Outside None None)).
  simpl. lra.
Defined.

End LayersFacts.
